(** * Sydneykids chat hook: a shallow embedding of [src/hooks/useChat.ts]

    The definitions follow the source file top to bottom:

    - [JS]: the ECMAScript string primitives the hook calls ([indexOf],
      [slice], [startsWith], [endsWith], [trim], [split]), over strings of
      UTF-16 code units;
    - [Json]: [JSON.parse], then the property reads and coercions the hook
      applies to what it returns;
    - [extractQuickReplies] (lines 19-29), its regular expression as a
      backtracking matcher;
    - [Stream]: [upsertAssistant] (lines 53-68) and the streaming part of
      [sendMessage] (lines 173-222) in explicit state-passing style. The
      reader is the list of text chunks it delivers before it reports
      [done]; the store is the message list in the state.

    The theorems come after: facts about the primitives and the parser
    (its fuel is never used up), then the properties of the extractor,
    of [upsertAssistant] and of the decode loop, and last the runs on
    concrete feeds. *)

From Stdlib Require Import List NArith ZArith Bool Lia.
From Stdlib Require String Ascii DecimalString DecimalZ DecimalPos.
Import ListNotations String.StringSyntax.
Delimit Scope string_scope with string.

Set Warnings "-register-all".

(* ================================================================== *)
(** ** ECMAScript strings *)
(* ================================================================== *)

Module JS.

(** A JavaScript string is a sequence of 16-bit code units. *)
Definition char := N.
Definition jsstring := list char.

Definition LF : char := 10%N.
Definition CR : char := 13%N.
Definition QUOTE : char := 34%N.

(** [lit] reads an ASCII literal. [jsq] does the same but reads every
    apostrophe as U+0022 (the double quote), so that JSON text can be
    written down in one piece: [jsq "{'a':1}"] is the text [{"a":1}]. *)
Definition lit (s : String.string) : jsstring :=
  map Ascii.N_of_ascii (String.list_ascii_of_string s).

Definition jsq (s : String.string) : jsstring :=
  map (fun a => let c := Ascii.N_of_ascii a in
                if N.eqb c 39 then QUOTE else c)
      (String.list_ascii_of_string s).

Arguments lit s%_string.
Arguments jsq s%_string.

Fixpoint eqb (a b : jsstring) : bool :=
  match a, b with
  | [], [] => true
  | c :: a', d :: b' => N.eqb c d && eqb a' b'
  | _, _ => false
  end.

Definition is_empty (s : jsstring) : bool :=
  match s with [] => true | _ :: _ => false end.

Definition len (s : jsstring) : Z := Z.of_nat (length s).

(** [s.startsWith(p)] and [s.endsWith(p)]. *)
Fixpoint startsWith (s p : jsstring) {struct p} : bool :=
  match p, s with
  | [], _ => true
  | _ :: _, [] => false
  | c :: p', d :: s' => N.eqb c d && startsWith s' p'
  end.

Definition endsWith (s p : jsstring) : bool :=
  startsWith (rev s) (rev p).

(** [s.indexOf(p)]: the index of the first occurrence, or -1. *)
Fixpoint indexOf (s p : jsstring) : Z :=
  if startsWith s p then 0%Z
  else match s with
       | [] => (-1)%Z
       | _ :: s' =>
           let i := indexOf s' p in
           if (i =? -1)%Z then (-1)%Z else (i + 1)%Z
       end.

(** [s.slice(start, end)]: a negative index counts from the end, and both
    are clamped to the string. *)
Definition relative_index (n i : Z) : Z :=
  if (i <? 0)%Z then Z.max (n + i) 0 else Z.min i n.

Definition slice (s : jsstring) (start end_ : Z) : jsstring :=
  let from := relative_index (len s) start in
  let to := relative_index (len s) end_ in
  firstn (Z.to_nat (to - from)) (skipn (Z.to_nat from) s).

(** [s.slice(start)]. *)
Definition slice_from (s : jsstring) (start : Z) : jsstring :=
  slice s start (len s).

(** WhiteSpace and LineTerminator code points, as [trim] strips them. *)
Definition is_white_space (c : char) : bool :=
  (N.eqb c 9 || N.eqb c 10 || N.eqb c 11 || N.eqb c 12 || N.eqb c 13
   || N.eqb c 32 || N.eqb c 160 || N.eqb c 5760
   || (N.leb 8192 c && N.leb c 8202)
   || N.eqb c 8232 || N.eqb c 8233 || N.eqb c 8239 || N.eqb c 8287
   || N.eqb c 12288 || N.eqb c 65279)%N.

Fixpoint trimStart (s : jsstring) : jsstring :=
  match s with
  | [] => []
  | c :: s' => if is_white_space c then trimStart s' else s
  end.

Definition trimEnd (s : jsstring) : jsstring :=
  rev (trimStart (rev s)).

Definition trim (s : jsstring) : jsstring :=
  trimEnd (trimStart s).

(** [s.split(sep)] for a separator of one code unit (the hook only splits
    on a newline). The empty string splits into one empty piece. *)
Fixpoint split (s : jsstring) (sep : char) : list jsstring :=
  match s with
  | [] => [[]]
  | c :: s' =>
      if N.eqb c sep then [] :: split s' sep
      else match split s' sep with
           | piece :: pieces => (c :: piece) :: pieces
           | [] => [[c]]
           end
  end.

End JS.

Import JS.

(* ================================================================== *)
(** ** JSON.parse *)
(* ================================================================== *)

Module Json.

(** What [JSON.parse] returns. A number keeps its source text: the hook
    never computes with one, it only tests it for zero and prints it. *)
Inductive json : Type :=
| JNull
| JBool (b : bool)
| JNumber (lexeme : jsstring)
| JString (s : jsstring)
| JArray (elems : list json)
| JObject (members : list (jsstring * json)).

(** JSON white space: tab, line feed, carriage return, space. *)
Definition is_json_ws (c : char) : bool :=
  (N.eqb c 9 || N.eqb c 10 || N.eqb c 13 || N.eqb c 32)%N.

Fixpoint skip_ws (s : jsstring) : jsstring :=
  match s with
  | [] => []
  | c :: s' => if is_json_ws c then skip_ws s' else s
  end.

(** *** Strings *)

Definition hex_value (c : char) : option N :=
  if (N.leb 48 c && N.leb c 57)%N then Some (c - 48)%N
  else if (N.leb 97 c && N.leb c 102)%N then Some (c - 87)%N
  else if (N.leb 65 c && N.leb c 70)%N then Some (c - 55)%N
  else None.

Definition hex4 (a b c d : char) : option char :=
  match hex_value a, hex_value b, hex_value c, hex_value d with
  | Some x, Some y, Some z, Some w => Some (((x * 16 + y) * 16 + z) * 16 + w)%N
  | _, _, _, _ => None
  end.

(** The character a one-letter escape stands for. *)
Definition simple_escape (c : char) : option char :=
  if N.eqb c 34 then Some 34%N            (* quote *)
  else if N.eqb c 92 then Some 92%N       (* backslash *)
  else if N.eqb c 47 then Some 47%N       (* solidus *)
  else if N.eqb c 98 then Some 8%N        (* b: backspace *)
  else if N.eqb c 102 then Some 12%N      (* f: form feed *)
  else if N.eqb c 110 then Some 10%N      (* n: line feed *)
  else if N.eqb c 114 then Some 13%N      (* r: carriage return *)
  else if N.eqb c 116 then Some 9%N       (* t: tab *)
  else None.

Definition prepend (c : char) (r : option (jsstring * jsstring))
  : option (jsstring * jsstring) :=
  match r with
  | Some (str, rest) => Some (c :: str, rest)
  | None => None
  end.

(** The characters of a string after its opening quote, up to and
    including the closing quote: the decoded string and what follows. *)
Fixpoint parse_string_chars (s : jsstring) : option (jsstring * jsstring) :=
  match s with
  | [] => None
  | c :: s' =>
      if N.eqb c 34 then Some ([], s')
      else if N.eqb c 92 then
        match s' with
        | [] => None
        | e :: s'' =>
            match simple_escape e with
            | Some d => prepend d (parse_string_chars s'')
            | None =>
                if N.eqb e 117 then
                  match s'' with
                  | h1 :: h2 :: h3 :: h4 :: s''' =>
                      match hex4 h1 h2 h3 h4 with
                      | Some d => prepend d (parse_string_chars s''')
                      | None => None
                      end
                  | _ => None
                  end
                else None
            end
        end
      else if N.ltb c 32 then None
      else prepend c (parse_string_chars s')
  end.

(** *** Numbers

    An optional minus sign; then a single 0, or a digit from 1 to 9 and
    any digits; then optionally a point and one or more digits; then
    optionally e or E, an optional sign and one or more digits. *)

Definition is_digit (c : char) : bool := (N.leb 48 c && N.leb c 57)%N.

Fixpoint take_digits (s : jsstring) : jsstring * jsstring :=
  match s with
  | [] => ([], [])
  | c :: s' =>
      if is_digit c then let (ds, r) := take_digits s' in (c :: ds, r)
      else ([], s)
  end.

Definition parse_int_part (s : jsstring) : option (jsstring * jsstring) :=
  match s with
  | [] => None
  | c :: s' =>
      if N.eqb c 48 then Some ([c], s')
      else if is_digit c then
        let (ds, r) := take_digits s' in Some (c :: ds, r)
      else None
  end.

Definition parse_frac_part (s : jsstring) : option (jsstring * jsstring) :=
  match s with
  | c :: s' =>
      if N.eqb c 46 then
        match take_digits s' with
        | ([], _) => None
        | (ds, r) => Some (c :: ds, r)
        end
      else Some ([], s)
  | [] => Some ([], s)
  end.

Definition parse_exp_part (s : jsstring) : option (jsstring * jsstring) :=
  match s with
  | c :: s' =>
      if (N.eqb c 101 || N.eqb c 69)%bool then
        let (sign, s1) :=
          match s' with
          | d :: s'' =>
              if (N.eqb d 43 || N.eqb d 45)%bool then ([d], s'') else ([], s')
          | [] => ([], s')
          end in
        match take_digits s1 with
        | ([], _) => None
        | (ds, r) => Some (c :: sign ++ ds, r)
        end
      else Some ([], s)
  | [] => Some ([], s)
  end.

Definition parse_number (s : jsstring) : option (jsstring * jsstring) :=
  let (sign, s1) :=
    match s with
    | c :: s' => if N.eqb c 45 then ([c], s') else ([], s)
    | [] => ([], s)
    end in
  match parse_int_part s1 with
  | None => None
  | Some (int, s2) =>
      match parse_frac_part s2 with
      | None => None
      | Some (frac, s3) =>
          match parse_exp_part s3 with
          | None => None
          | Some (exp, s4) => Some (sign ++ int ++ frac ++ exp, s4)
          end
      end
  end.

(** *** Values

    The parser recurses into arrays and objects on [fuel]; [JSON_parse]
    below starts it with more than it can use ([parse_value_fuel]). *)

Inductive parse_result (A : Type) : Type :=
| Parsed (a : A) (rest : jsstring)
| SyntaxError
| OutOfFuel.

Arguments Parsed {A} a rest.
Arguments SyntaxError {A}.
Arguments OutOfFuel {A}.

Definition and_then {A B : Type} (r : parse_result A)
  (k : A -> jsstring -> parse_result B) : parse_result B :=
  match r with
  | Parsed a rest => k a rest
  | SyntaxError => SyntaxError
  | OutOfFuel => OutOfFuel
  end.

Definition of_option {A : Type} (r : option (A * jsstring)) (f : A -> json)
  : parse_result json :=
  match r with
  | Some (a, rest) => Parsed (f a) rest
  | None => SyntaxError
  end.

(** [eat c s]: what follows the character [c] at the head of [s]. *)
Definition eat (c : char) (s : jsstring) : option jsstring :=
  match s with
  | d :: rest => if N.eqb d c then Some rest else None
  | [] => None
  end.

Definition QUOTATION_MARK : char := 34%N.
Definition COMMA : char := 44%N.
Definition COLON : char := 58%N.
Definition LBRACKET : char := 91%N.
Definition RBRACKET : char := 93%N.
Definition LBRACE : char := 123%N.
Definition RBRACE : char := 125%N.

Fixpoint parse_value (fuel : nat) (s : jsstring) {struct fuel}
  : parse_result json :=
  match fuel with
  | O => OutOfFuel
  | S fuel' =>
      match s with
      | [] => SyntaxError
      | c :: s' =>
          if N.eqb c QUOTATION_MARK then
            of_option (parse_string_chars s') JString
          else if N.eqb c LBRACKET then
            match eat RBRACKET (skip_ws s') with
            | Some r => Parsed (JArray []) r
            | None => and_then (parse_elements fuel' (skip_ws s'))
                        (fun vs r => Parsed (JArray vs) r)
            end
          else if N.eqb c LBRACE then
            match eat RBRACE (skip_ws s') with
            | Some r => Parsed (JObject []) r
            | None => and_then (parse_members fuel' (skip_ws s'))
                        (fun ms r => Parsed (JObject ms) r)
            end
          else if startsWith s (lit "true") then Parsed (JBool true) (skipn 4 s)
          else if startsWith s (lit "false") then Parsed (JBool false) (skipn 5 s)
          else if startsWith s (lit "null") then Parsed JNull (skipn 4 s)
          else of_option (parse_number s) JNumber
      end
  end

with parse_elements (fuel : nat) (s : jsstring) {struct fuel}
  : parse_result (list json) :=
  match fuel with
  | O => OutOfFuel
  | S fuel' =>
      and_then (parse_value fuel' s) (fun v r =>
        match eat COMMA (skip_ws r) with
        | Some r' =>
            and_then (parse_elements fuel' (skip_ws r'))
              (fun vs r'' => Parsed (v :: vs) r'')
        | None =>
            match eat RBRACKET (skip_ws r) with
            | Some r' => Parsed [v] r'
            | None => SyntaxError
            end
        end)
  end

with parse_members (fuel : nat) (s : jsstring) {struct fuel}
  : parse_result (list (jsstring * json)) :=
  match fuel with
  | O => OutOfFuel
  | S fuel' =>
      match eat QUOTATION_MARK s with
      | None => SyntaxError
      | Some s' =>
          match parse_string_chars s' with
          | None => SyntaxError
          | Some (key, r) =>
              match eat COLON (skip_ws r) with
              | None => SyntaxError
              | Some r' =>
                  and_then (parse_value fuel' (skip_ws r')) (fun v r'' =>
                    match eat COMMA (skip_ws r'') with
                    | Some r3 =>
                        and_then (parse_members fuel' (skip_ws r3))
                          (fun ms r4 => Parsed ((key, v) :: ms) r4)
                    | None =>
                        match eat RBRACE (skip_ws r'') with
                        | Some r3 => Parsed [(key, v)] r3
                        | None => SyntaxError
                        end
                    end)
              end
          end
      end
  end.

(** [JSON.parse(text)]: [None] is a thrown SyntaxError. *)
Definition JSON_parse (text : jsstring) : option json :=
  match parse_value (2 * length text + 1) (skip_ws text) with
  | Parsed v r => if is_empty (skip_ws r) then Some v else None
  | SyntaxError => None
  | OutOfFuel => None
  end.

End Json.

Import Json.

(* ================================================================== *)
(** ** Property reads on parsed values *)
(* ================================================================== *)

(** A value of the running program: [None] is [undefined]. *)
Definition jsvalue := option json.

(** The own property [key] of an object built by [JSON.parse]: of two
    members with one name the later one stands. *)
Fixpoint lookup (key : jsstring) (ms : list (jsstring * json)) : jsvalue :=
  match ms with
  | [] => None
  | (k, v) :: ms' =>
      match lookup key ms' with
      | Some w => Some w
      | None => if eqb k key then Some v else None
      end
  end.

(** [v.name] for a name that no prototype defines and that is neither an
    index nor [length] (the hook reads [choices], [delta], [content]):
    only an object can have it. [v] is not [null]. *)
Definition GetNamed (v : json) (name : jsstring) : jsvalue :=
  match v with
  | JObject ms => lookup name ms
  | _ => None
  end.

(** [v[0]] on a value that is not [null]: the member named 0 of an
    object, the first element of an array, the first code unit of a
    string. *)
Definition GetIndex0 (v : json) : jsvalue :=
  match v with
  | JObject ms => lookup (lit "0") ms
  | JArray (e :: _) => Some e
  | JString (c :: _) => Some (JString [c])
  | _ => None
  end.

(** The outcome of evaluating an expression: a value, or a thrown
    TypeError. *)
Inductive completion (A : Type) : Type :=
| Normal (a : A)
| Throw.

Arguments Normal {A} a.
Arguments Throw {A}.

(** [parsed.choices?.[0]?.delta?.content] (lines 198 and 218). Reading
    [choices] off [null] throws; each [?.] yields [undefined] when what
    stands before it is [null] or [undefined]. *)
Definition delta_content (parsed : json) : completion jsvalue :=
  match parsed with
  | JNull => Throw
  | _ =>
      Normal
        match GetNamed parsed (lit "choices") with
        | None | Some JNull => None
        | Some choices =>
            match GetIndex0 choices with
            | None | Some JNull => None
            | Some choice =>
                match GetNamed choice (lit "delta") with
                | None | Some JNull => None
                | Some delta => GetNamed delta (lit "content")
                end
            end
        end
  end.

(* ================================================================== *)
(** ** extractQuickReplies (lines 18-29) *)
(* ================================================================== *)

(** The [.] of a regular expression matches any code unit but a line
    terminator. *)
Definition is_line_terminator (c : char) : bool :=
  (N.eqb c 10 || N.eqb c 13 || N.eqb c 8232 || N.eqb c 8233)%N.

Definition MARKER_OPEN : jsstring := lit "<!--QUICK_REPLIES:[".
Definition MARKER_CLOSE : jsstring := lit "]-->".

(** [(.+?)\]-->] at the head of [s]: the group takes one character, then
    as few more as it needs for the closing literal to follow. The result
    is the group and what follows the match. *)
Fixpoint lazy_group_then_close (s : jsstring) : option (jsstring * jsstring) :=
  match s with
  | [] => None
  | c :: s' =>
      if is_line_terminator c then None
      else if startsWith s' MARKER_CLOSE then
        Some ([c], skipn (length MARKER_CLOSE) s')
      else
        match lazy_group_then_close s' with
        | Some (group, after) => Some (c :: group, after)
        | None => None
        end
  end.

(** The whole pattern at the head of [s]. *)
Definition match_here (s : jsstring) : option (jsstring * jsstring) :=
  if startsWith s MARKER_OPEN
  then lazy_group_then_close (skipn (length MARKER_OPEN) s)
  else None.

(** What [content.match(re)] finds: the text before the leftmost match,
    the captured group ([match[1]]) and the text after the match. *)
Record RegExpMatch : Type := {
  before : jsstring;
  group1 : jsstring;
  after : jsstring
}.

(** [/<!--QUICK_REPLIES:\[(.+?)\]-->/] searched in [s] from left to
    right. *)
Fixpoint regexp_exec (s : jsstring) : option RegExpMatch :=
  match match_here s with
  | Some (g, rest) => Some {| before := []; group1 := g; after := rest |}
  | None =>
      match s with
      | [] => None
      | c :: s' =>
          match regexp_exec s' with
          | Some m => Some {| before := c :: before m;
                              group1 := group1 m;
                              after := after m |}
          | None => None
          end
      end
  end.

(** [content.replace(re, "")] with the same pattern: the first match is
    cut out. *)
Definition replace_first_match (s : jsstring) : jsstring :=
  match regexp_exec s with
  | Some m => before m ++ after m
  | None => s
  end.

(** The object [extractQuickReplies] returns. [quickReplies] is whatever
    [JSON.parse] produced: the source assigns it unchecked. *)
Record MessageView : Type := {
  cleanContent : jsstring;
  quickReplies : json
}.

Definition extractQuickReplies (content : jsstring) : MessageView :=
  match regexp_exec content with
  | None => {| cleanContent := content; quickReplies := JArray [] |}
  | Some m =>
      match JSON_parse (lit "[" ++ group1 m ++ lit "]") with
      | Some replies =>
          {| cleanContent := trim (replace_first_match content);
             quickReplies := replies |}
      | None => {| cleanContent := content; quickReplies := JArray [] |}
      end
  end.

(* ================================================================== *)
(** ** The conversation store and the state of one [sendMessage] *)
(* ================================================================== *)

Inductive Role : Type := user | assistant.

Definition Role_eqb (a b : Role) : bool :=
  match a, b with
  | user, user | assistant, assistant => true
  | _, _ => false
  end.

Module ChatMessage.
Record t : Type := {
  id : jsstring;
  role : Role;
  content : jsstring;
  timestamp : Z;
  quickReplies : option json
}.
End ChatMessage.

(** [l.length]. *)
Definition len_list {A : Type} (l : list A) : Z := Z.of_nat (length l).

(** [l[i]]: [undefined] outside the list. *)
Definition item {A : Type} (l : list A) (i : Z) : option A :=
  if (i <? 0)%Z then None else nth_error l (Z.to_nat i).

(** [l.map((m, i) => f m i)]. *)
Fixpoint map_from {A B : Type} (i : Z) (f : A -> Z -> B) (l : list A) : list B :=
  match l with
  | [] => []
  | a :: l' => f a i :: map_from (i + 1) f l'
  end.

Definition mapi {A B : Type} (f : A -> Z -> B) (l : list A) : list B :=
  map_from 0 f l.

(** The variables of one [sendMessage] call from line 50 on, with the
    store's message list. [published], [records] and [flushed] are
    traces, written and never read: the views [upsertAssistant] handed to
    [setMessages], the records the read loop took out of the buffer, and
    those the final flush took. *)
Record state : Type := {
  assistantId : jsstring;
  assistantSoFar : jsstring;
  textBuffer : jsstring;
  streamDone : bool;
  messages : list ChatMessage.t;
  clock : Z;
  published : list MessageView;
  records : list jsstring;
  flushed : list jsstring
}.

Definition set_assistantSoFar (v : jsstring) (st : state) : state :=
  {| assistantId := assistantId st; assistantSoFar := v;
     textBuffer := textBuffer st; streamDone := streamDone st;
     messages := messages st; clock := clock st;
     published := published st; records := records st;
     flushed := flushed st |}.

Definition set_textBuffer (v : jsstring) (st : state) : state :=
  {| assistantId := assistantId st; assistantSoFar := assistantSoFar st;
     textBuffer := v; streamDone := streamDone st;
     messages := messages st; clock := clock st;
     published := published st; records := records st;
     flushed := flushed st |}.

Definition set_streamDone (v : bool) (st : state) : state :=
  {| assistantId := assistantId st; assistantSoFar := assistantSoFar st;
     textBuffer := textBuffer st; streamDone := v;
     messages := messages st; clock := clock st;
     published := published st; records := records st;
     flushed := flushed st |}.

(** [setMessages(update)] as [upsertAssistant] calls it: the store's list
    is replaced, and the view it was computed from is noted. *)
Definition setMessages (update : list ChatMessage.t -> list ChatMessage.t)
  (view : MessageView) (st : state) : state :=
  {| assistantId := assistantId st; assistantSoFar := assistantSoFar st;
     textBuffer := textBuffer st; streamDone := streamDone st;
     messages := update (messages st); clock := clock st;
     published := published st ++ [view]; records := records st;
     flushed := flushed st |}.

Definition note_record (line : jsstring) (st : state) : state :=
  {| assistantId := assistantId st; assistantSoFar := assistantSoFar st;
     textBuffer := textBuffer st; streamDone := streamDone st;
     messages := messages st; clock := clock st;
     published := published st; records := records st ++ [line];
     flushed := flushed st |}.

Definition note_flushed (raw : jsstring) (st : state) : state :=
  {| assistantId := assistantId st; assistantSoFar := assistantSoFar st;
     textBuffer := textBuffer st; streamDone := streamDone st;
     messages := messages st; clock := clock st;
     published := published st; records := records st;
     flushed := flushed st ++ [raw] |}.

(** The state at line 173, before the first read: [prev] is the store's
    list, the user's message already appended (line 47). *)
Definition start_stream (aid : jsstring) (time : Z)
  (prev : list ChatMessage.t) : state :=
  {| assistantId := aid; assistantSoFar := []; textBuffer := [];
     streamDone := false; messages := prev; clock := time;
     published := []; records := []; flushed := [] |}.

(* ================================================================== *)
(** ** upsertAssistant and the decode loop of sendMessage *)
(* ================================================================== *)

Module Stream.

Section Decoder.

(** [Number::toString] of the number a JSON lexeme denotes. ECMAScript
    leaves its last digit to the engine, so it is kept abstract; the hook
    meets it only when a [content] field holds a number. *)
Variable Number_toString : jsstring -> jsstring.

(** [if (content)]: the truth value of [content]. A number is falsy when
    it is zero, and zero is the one number that prints as 0. *)
Definition ToBoolean (v : jsvalue) : bool :=
  match v with
  | None => false
  | Some JNull => false
  | Some (JBool b) => b
  | Some (JNumber lexeme) => negb (eqb (Number_toString lexeme) (lit "0"))
  | Some (JString s) => negb (is_empty s)
  | Some (JArray _) => true
  | Some (JObject _) => true
  end.

(** [Array.prototype.join] with a comma, over elements already
    converted. *)
Fixpoint join_commas (parts : list (option jsstring)) : option jsstring :=
  match parts with
  | [] => Some []
  | [p] => p
  | p :: ps =>
      match p, join_commas ps with
      | Some a, Some b => Some (a ++ lit "," ++ b)
      | _, _ => None
      end
  end.

(** The string [assistantSoFar += chunk] appends for a value [chunk]
    ([None]: a TypeError is thrown). A string is appended as it is. An
    array is joined with commas, [null] elements as empty strings. A
    plain object prints as "[object Object]", unless it has a member
    named [toString]: that hides the inherited method, is not callable,
    and the conversion throws. *)
Fixpoint ToString (v : json) : option jsstring :=
  match v with
  | JNull => Some (lit "null")
  | JBool true => Some (lit "true")
  | JBool false => Some (lit "false")
  | JNumber lexeme => Some (Number_toString lexeme)
  | JString s => Some s
  | JArray elems =>
      join_commas
        (map (fun e => match e with JNull => Some [] | _ => ToString e end)
             elems)
  | JObject ms =>
      match lookup (lit "toString") ms with
      | Some _ => None
      | None => Some (lit "[object Object]")
      end
  end.

(** The update [upsertAssistant] passes to [setMessages] (lines 56-67). *)
Definition upsert_update (aid : jsstring) (time : Z) (view : MessageView)
  (prev : list ChatMessage.t) : list ChatMessage.t :=
  let replaced (m : ChatMessage.t) : ChatMessage.t :=
    {| ChatMessage.id := ChatMessage.id m;
       ChatMessage.role := ChatMessage.role m;
       ChatMessage.content := cleanContent view;
       ChatMessage.timestamp := ChatMessage.timestamp m;
       ChatMessage.quickReplies := Some (quickReplies view) |} in
  let is_reply :=
    match item prev (len_list prev - 1) with
    | Some last =>
        Role_eqb (ChatMessage.role last) assistant
        && eqb (ChatMessage.id last) aid
    | None => false
    end in
  if is_reply then
    mapi (fun m i => if (i =? len_list prev - 1)%Z then replaced m else m) prev
  else
    prev ++ [ {| ChatMessage.id := aid;
                 ChatMessage.role := assistant;
                 ChatMessage.content := cleanContent view;
                 ChatMessage.timestamp := time;
                 ChatMessage.quickReplies := Some (quickReplies view) |} ].

(** [upsertAssistant(chunk)] (lines 53-68), for a [chunk] that is a
    string, as its signature has it; [decode] below sees to other
    values. *)
Definition upsertAssistant (chunk : jsstring) (st : state) : state :=
  let st := set_assistantSoFar (assistantSoFar st ++ chunk) st in
  let view := extractQuickReplies (assistantSoFar st) in
  setMessages (upsert_update (assistantId st) (clock st) view) view st.

(** What both loops find in a record inside their [try] (lines 187-199
    and 212-219): nothing to do, the sentinel, a truthy [content] to hand
    to [upsertAssistant], or an exception. [content] is cast to a string
    and not checked; the conversion that [assistantSoFar += chunk] gives a
    value of another type comes before anything is assigned, so
    [DataPayload] carries the string that is appended, and a conversion
    that throws counts as [Malformed] like every other exception of the
    [try]. *)
Inductive DecodedEvent : Type :=
| Ignorable
| Terminator
| DataPayload (chunk : jsstring)
| Malformed.

Definition DONE : jsstring := lit "[DONE]".

Definition decode (line : jsstring) : DecodedEvent :=
  if startsWith line (lit ":") || is_empty (trim line) then Ignorable
  else if negb (startsWith line (lit "data: ")) then Ignorable
  else
    let jsonStr := trim (slice_from line 6) in
    if eqb jsonStr DONE then Terminator
    else
      match JSON_parse jsonStr with
      | None => Malformed
      | Some parsed =>
          match delta_content parsed with
          | Throw => Malformed
          | Normal None => Ignorable
          | Normal (Some content) =>
              if ToBoolean (Some content) then
                match ToString content with
                | Some chunk => DataPayload chunk
                | None => Malformed
                end
              else Ignorable
          end
      end.

(** [if (line.endsWith("\r")) line = line.slice(0, -1)]. *)
Definition strip_cr (line : jsstring) : jsstring :=
  if endsWith line [CR] then slice line 0 (-1) else line.

(** The [catch] of the read loop (lines 200-203). *)
Definition rebuffer (line : jsstring) (st : state) : state :=
  set_textBuffer (line ++ [LF] ++ textBuffer st) st.

(** The inner [while] (lines 182-204). Every turn that goes round takes
    at least the newline out of the buffer, so [fuel] above the buffer's
    length is never used up ([inner_loop_fuel]). *)
Fixpoint inner_loop (fuel : nat) (st : state) : state :=
  match fuel with
  | O => st
  | S fuel' =>
      let newlineIndex := indexOf (textBuffer st) [LF] in
      if (newlineIndex =? -1)%Z then st
      else
        let line := slice (textBuffer st) 0 newlineIndex in
        let st := set_textBuffer
                    (slice_from (textBuffer st) (newlineIndex + 1)) st in
        let line := strip_cr line in
        let st := note_record line st in
        match decode line with
        | Ignorable => inner_loop fuel' st
        | Terminator => set_streamDone true st
        | DataPayload chunk => inner_loop fuel' (upsertAssistant chunk st)
        | Malformed => rebuffer line st
        end
  end.

(** One turn of the outer [while] once [reader.read()] has delivered
    [value] (lines 179-204). The chunks are modelled after
    [TextDecoder.decode(value, {stream: true})], which hands over the
    text of the bytes however they were cut. *)
Definition read_chunk (value : jsstring) (st : state) : state :=
  let st := set_textBuffer (textBuffer st ++ value) st in
  inner_loop (S (length (textBuffer st))) st.

(** The outer [while] (lines 176-205) over the chunks the reader
    delivers before it reports [done]. *)
Fixpoint read_loop (chunks : list jsstring) (st : state) : state :=
  if streamDone st then st
  else
    match chunks with
    | [] => st
    | value :: rest => read_loop rest (read_chunk value st)
    end.

(** The body of the flush's [for] (lines 210-220). *)
Definition flush_raw (st : state) (raw : jsstring) : state :=
  if is_empty raw then st
  else
    let raw := strip_cr raw in
    let st := note_flushed raw st in
    match decode raw with
    | Ignorable => st
    | Terminator => st
    | DataPayload chunk => upsertAssistant chunk st
    | Malformed => st
    end.

(** The final flush (lines 207-222). *)
Definition final_flush (st : state) : state :=
  if is_empty (trim (textBuffer st)) then st
  else fold_left flush_raw (split (textBuffer st) LF) st.

(** Lines 176-222: the read loop, then the flush. *)
Definition decode_stream (chunks : list jsstring) (st : state) : state :=
  final_flush (read_loop chunks st).

End Decoder.

End Stream.

Import Stream.

(* ================================================================== *)
(** ** sendMessage as a whole (lines 37-229) *)
(* ================================================================== *)

Module Hook.

(** [n.toString()] for an integer number of milliseconds: its decimal
    digits, a minus sign first when it is negative. *)
Definition decimal (n : Z) : jsstring :=
  lit (DecimalString.NilZero.string_of_int (Z.to_int n)).

(** What [toast] is called with. *)
Record Toast : Type := {
  title : jsstring;
  description : json;
  variant : jsstring
}.

(** How the reader ends once it has delivered its chunks: it reports
    [done], or the read rejects. *)
Inductive reader_end : Type := Done | ReadRejects.

(** What [fetch] resolved to: the status, what [resp.json()] resolves to
    ([None]: it rejects) and the body ([None]: [resp.body] is null). *)
Record Response : Type := {
  status : Z;
  json_body : option json;
  body : option (list jsstring * reader_end)
}.

(** [resp.ok]: a status from 200 to 299. *)
Definition ok (resp : Response) : bool :=
  (200 <=? status resp)%Z && (status resp <=? 299)%Z.

(** What the awaits of lines 82-151 come to: one of them rejects (a
    context query or [fetch] itself), or [fetch] resolves. *)
Inductive transport : Type :=
| Rejected
| Responded (resp : Response).

(** The four readings of the clock: [Date.now()] at lines 41 and 51,
    [new Date()] at line 44 and in [upsertAssistant]. *)
Record clock_reads : Type := {
  now_user : Z;
  date_user : Z;
  now_reply : Z;
  date_reply : Z
}.

(** What the hook shows: the store's messages, the busy flag and the
    toasts raised so far. *)
Record view : Type := {
  store : list ChatMessage.t;
  isLoading : bool;
  toasts : list Toast
}.

Definition DESTRUCTIVE : jsstring := lit "destructive".

Definition connection_error : Toast :=
  {| title := lit "Connection Error";
     description := JString (lit "Could not connect to AI assistant.");
     variant := DESTRUCTIVE |}.

Definition DEFAULT_ERROR : jsstring :=
  lit "Failed to get a response. Please try again.".

(** [errorData.error] (line 155): reading it off [null] throws. *)
Definition error_of (errorData : json) : completion jsvalue :=
  match errorData with
  | JNull => Throw
  | _ => Normal (GetNamed errorData (lit "error"))
  end.

Section SendMessage.

Variable Number_toString : jsstring -> jsstring.

(** [errorData.error || "Failed to get a response. Please try again."]. *)
Definition errorMsg (error : jsvalue) : json :=
  match error with
  | Some v => if ToBoolean Number_toString error then v
              else JString DEFAULT_ERROR
  | None => JString DEFAULT_ERROR
  end.

(** The toast of lines 157-163. *)
Definition status_toast (code : Z) (msg : json) : Toast :=
  if (code =? 429)%Z then
    {| title := lit "Rate Limited";
       description := JString (lit "Too many requests. Please wait a moment.");
       variant := DESTRUCTIVE |}
  else if (code =? 402)%Z then
    {| title := lit "Credits Exhausted";
       description := JString (lit "AI usage credits have been exhausted.");
       variant := DESTRUCTIVE |}
  else
    {| title := lit "Error"; description := msg; variant := DESTRUCTIVE |}.

(** [sendMessage(text)] on the hook as it stands in [h], the clock and
    the transport behaving as [clk] and [tr] say. The [catch] raises the
    connection toast; the [finally] clears the busy flag on every way
    out of the [try]. What the request carries is not part of the
    model. *)
Definition sendMessage (clk : clock_reads) (tr : transport)
  (text : jsstring) (h : view) : view :=
  if is_empty (trim text) || isLoading h then h
  else
    let userMsg :=
      {| ChatMessage.id := decimal (now_user clk);
         ChatMessage.role := user;
         ChatMessage.content := text;
         ChatMessage.timestamp := date_user clk;
         ChatMessage.quickReplies := None |} in
    let st0 := start_stream (decimal (now_reply clk + 1)) (date_reply clk)
                 (store h ++ [userMsg]) in
    let caught (st : state) : view :=
      {| store := messages st; isLoading := false;
         toasts := toasts h ++ [connection_error] |} in
    match tr with
    | Rejected => caught st0
    | Responded resp =>
        if negb (ok resp) then
          let errorData :=
            match json_body resp with
            | Some v => v
            | None => JObject []
            end in
          match error_of errorData with
          | Throw => caught st0
          | Normal error =>
              {| store := messages st0; isLoading := false;
                 toasts := toasts h
                           ++ [status_toast (status resp) (errorMsg error)] |}
          end
        else
          match body resp with
          | None => caught st0
          | Some (chunks, ending) =>
              let st := read_loop Number_toString chunks st0 in
              match ending, streamDone st with
              | ReadRejects, false => caught st
              | _, _ =>
                  {| store := messages (final_flush Number_toString st);
                     isLoading := false;
                     toasts := toasts h |}
              end
          end
    end.

End SendMessage.

End Hook.

(* ================================================================== *)
(** ** The vocabulary of the claims *)
(* ================================================================== *)

(** Whether a value is a string, and whether it is an array of
    strings. *)
Definition is_string (v : json) : bool :=
  match v with JString _ => true | _ => false end.

Definition is_string_array (v : json) : bool :=
  match v with JArray elems => forallb is_string elems | _ => false end.

(** A check, by scanning, that every marker opening in [s] is followed
    by the closing literal. *)
Fixpoint all_markers_empty (s : jsstring) : bool :=
  (if startsWith s MARKER_OPEN
   then startsWith (skipn (length MARKER_OPEN) s) MARKER_CLOSE
   else true)
  && match s with
     | [] => true
     | _ :: s' => all_markers_empty s'
     end.

(** The six characters a data record starts with. *)
Definition DATA_PREFIX : jsstring := lit "data: ".

(** What a state looks like once the reply [aid] has its message: it is
    the one after [prev], and shows the clean content of the text so
    far. *)
Definition reply_in_place (aid : jsstring) (prev : list ChatMessage.t)
  (st : state) : Prop :=
  assistantId st = aid
  /\ exists reply,
       messages st = prev ++ [reply]
       /\ ChatMessage.id reply = aid
       /\ ChatMessage.role reply = assistant
       /\ ChatMessage.content reply
          = cleanContent (extractQuickReplies (assistantSoFar st)).

(** How many messages of a list carry the id [aid]. *)
Definition count_id (aid : jsstring) (l : list ChatMessage.t) : nat :=
  length (filter (fun m => eqb (ChatMessage.id m) aid) l).

(** The records of a trace put back together, a newline after each. *)
Definition restore (recs : list jsstring) : jsstring :=
  concat (map (fun r => r ++ [LF]) recs).

(** A record that neither stops the read loop nor goes back into the
    buffer. *)
Definition goes_through (e : DecodedEvent) : bool :=
  match e with
  | Ignorable | DataPayload _ => true
  | Terminator | Malformed => false
  end.

(** The text after the last newline of a feed. *)
Definition unterminated_tail (feed : jsstring) : jsstring :=
  last (split feed LF) [].

(** The state of a read loop that waits on a record it cannot parse: the
    record heads the buffer, [tail] follows it, and nothing else has
    changed since [st0]. *)
Definition waiting (payload tail : jsstring) (st0 st : state) : Prop :=
  streamDone st = false
  /\ assistantSoFar st = assistantSoFar st0
  /\ published st = published st0
  /\ messages st = messages st0
  /\ exists line,
       textBuffer st = line ++ LF :: tail
       /\ ~ In LF line
       /\ startsWith line DATA_PREFIX = true
       /\ trim (slice_from line 6) = payload.

(** Two states that show the same reply: they agree on everything but
    the buffer, the stop flag and the traces. *)
Definition same_reply (a b : state) : Prop :=
  assistantId a = assistantId b
  /\ assistantSoFar a = assistantSoFar b
  /\ messages a = messages b
  /\ clock a = clock b
  /\ published a = published b.

(** The flush's [for] run over [text], without the guard of line 208. *)
Definition flush_all (Number_toString : jsstring -> jsstring)
  (text : jsstring) (st : state) : state :=
  fold_left (flush_raw Number_toString) (split text LF) st.

(** Where a concrete run needs [Number::toString] it gets the lexeme
    back; none of the feeds below has a number for its content. *)
Definition lexeme_as_written (lexeme : jsstring) : jsstring := lexeme.

(** The three records of the termination example. *)
Definition HI_RECORD : jsstring :=
  jsq "data: {'choices':[{'delta':{'content':'Hi'}}]}".

Definition DONE_RECORD : jsstring := lit "data: [DONE]".

Definition IGNORED_RECORD : jsstring :=
  jsq "data: {'choices':[{'delta':{'content':'ignored'}}]}".

(** ** The vocabulary of the further properties *)

(** The test of line 58: whether the last message of [prev] is the
    assistant message of the reply [aid]. *)
Definition last_is_reply (aid : jsstring) (prev : list ChatMessage.t) : bool :=
  match item prev (len_list prev - 1) with
  | Some last =>
      Role_eqb (ChatMessage.role last) assistant
      && eqb (ChatMessage.id last) aid
  | None => false
  end.

(** The assistant message that shows the running text of [st]. *)
Definition reply_shown (st : state) : ChatMessage.t :=
  {| ChatMessage.id := assistantId st;
     ChatMessage.role := assistant;
     ChatMessage.content :=
       cleanContent (extractQuickReplies (assistantSoFar st));
     ChatMessage.timestamp := clock st;
     ChatMessage.quickReplies :=
       Some (quickReplies (extractQuickReplies (assistantSoFar st))) |}.

(** The store of a reply that started from the messages [prev]: untouched
    while nothing has been published, and from then on [prev] followed by
    the one message that shows the running text, which is also the view
    published last. *)
Definition shows_running_text (prev : list ChatMessage.t) (st : state) : Prop :=
  (published st = [] /\ assistantSoFar st = [] /\ messages st = prev)
  \/ (exists earlier,
        published st
        = earlier ++ [extractQuickReplies (assistantSoFar st)])
     /\ messages st = prev ++ [reply_shown st].

(** The message of lines 40-45 and the id of line 51. *)
Definition user_message (clk : Hook.clock_reads) (text : jsstring)
  : ChatMessage.t :=
  {| ChatMessage.id := Hook.decimal (Hook.now_user clk);
     ChatMessage.role := user;
     ChatMessage.content := text;
     ChatMessage.timestamp := Hook.date_user clk;
     ChatMessage.quickReplies := None |}.

Definition reply_id (clk : Hook.clock_reads) : jsstring :=
  Hook.decimal (Hook.now_reply clk + 1).

(** The views that appending the chunks [chunks] one by one to the text
    [base] publishes. *)
Fixpoint views_from (base : jsstring) (chunks : list jsstring)
  : list MessageView :=
  match chunks with
  | [] => []
  | c :: rest => extractQuickReplies (base ++ c) :: views_from (base ++ c) rest
  end.

(** The content fragments the lines [raws] of a feed carry, in order. *)
Definition payloads (Number_toString : jsstring -> jsstring)
  (raws : list jsstring) : list jsstring :=
  flat_map
    (fun raw =>
       match decode Number_toString (strip_cr raw) with
       | DataPayload chunk => [chunk]
       | _ => []
       end)
    raws.

(* ================================================================== *)
(** * Facts about the string primitives *)
(* ================================================================== *)

Module JSFacts.

(** How [jsq] reads its literal. *)
Lemma jsq_example :
  jsq "{'a':1}" = [123; QUOTE; 97; QUOTE; 58; 49; 125]%N.
Proof. reflexivity. Qed.

Lemma eqb_refl (a : jsstring) : eqb a a = true.
Proof.
  induction a as [|c a IH]; simpl; [reflexivity|].
  now rewrite N.eqb_refl, IH.
Qed.

Lemma eqb_eq (a b : jsstring) : eqb a b = true <-> a = b.
Proof.
  split.
  - revert b; induction a as [|c a IH]; intros [|d b] H; simpl in H;
      try discriminate; [reflexivity|].
    apply andb_true_iff in H as [Hc Hr].
    apply N.eqb_eq in Hc. apply IH in Hr. now subst.
  - intros ->. apply eqb_refl.
Qed.

Lemma eqb_neq (a b : jsstring) : eqb a b = false <-> a <> b.
Proof.
  rewrite <- eqb_eq. destruct (eqb a b); split; congruence.
Qed.

Lemma is_empty_nil (s : jsstring) : is_empty s = true <-> s = [].
Proof. destruct s; simpl; split; congruence. Qed.

Lemma startsWith_app (p r : jsstring) : startsWith (p ++ r) p = true.
Proof.
  induction p as [|c p IH]; simpl; [reflexivity|].
  now rewrite N.eqb_refl, IH.
Qed.

Lemma startsWith_inv (s p : jsstring) :
  startsWith s p = true -> s = p ++ skipn (length p) s.
Proof.
  revert s; induction p as [|c p IH]; intros s H; [reflexivity|].
  destruct s as [|d s]; simpl in H; [discriminate|].
  apply andb_true_iff in H as [Hc Hr].
  apply N.eqb_eq in Hc. subst d. simpl. f_equal. now apply IH.
Qed.

Lemma startsWith_iff (s p : jsstring) :
  startsWith s p = true <-> exists r, s = p ++ r.
Proof.
  split.
  - intros H. eexists. now apply startsWith_inv.
  - intros [r ->]. apply startsWith_app.
Qed.

Lemma len_app (a b : jsstring) : len (a ++ b) = (len a + len b)%Z.
Proof. unfold len. rewrite length_app. lia. Qed.

Lemma len_nonneg (a : jsstring) : (0 <= len a)%Z.
Proof. unfold len. lia. Qed.

(** *** [indexOf] of a newline *)

Lemma indexOf_ge (s p : jsstring) : (-1 <= indexOf s p)%Z.
Proof.
  induction s as [|c s IH]; simpl.
  - destruct p; simpl; lia.
  - destruct (startsWith (c :: s) p); [lia|].
    destruct (indexOf s p =? -1)%Z eqn:E; lia.
Qed.

Lemma indexOf_newline_cons (c : char) (s : jsstring) :
  indexOf (c :: s) [LF] =
  if N.eqb LF c then 0%Z
  else if (indexOf s [LF] =? -1)%Z then (-1)%Z else (indexOf s [LF] + 1)%Z.
Proof.
  cbn [indexOf startsWith]. rewrite andb_true_r. reflexivity.
Qed.

Lemma indexOf_newline_absent (s : jsstring) :
  ~ In LF s -> indexOf s [LF] = (-1)%Z.
Proof.
  induction s as [|c s IH]; intros H; [reflexivity|].
  rewrite indexOf_newline_cons.
  destruct (N.eqb LF c) eqn:E.
  - apply N.eqb_eq in E. subst c. exfalso. apply H. now left.
  - rewrite IH; [reflexivity|]. intros Hin. apply H. now right.
Qed.

Lemma indexOf_newline_first (l r : jsstring) :
  ~ In LF l -> indexOf (l ++ LF :: r) [LF] = len l.
Proof.
  induction l as [|c l IH]; intros H.
  - reflexivity.
  - rewrite <- app_comm_cons, indexOf_newline_cons.
    destruct (N.eqb LF c) eqn:E.
    + apply N.eqb_eq in E. subst c. exfalso. apply H. now left.
    + rewrite IH by (intros Hin; apply H; now right).
      pose proof (len_nonneg l).
      destruct (len l =? -1)%Z eqn:E'; [apply Z.eqb_eq in E'; lia|].
      unfold len. simpl length. lia.
Qed.

Lemma first_newline (s : jsstring) :
  In LF s -> exists l r, s = l ++ LF :: r /\ ~ In LF l.
Proof.
  induction s as [|c s IH]; intros H; [destruct H|].
  destruct (N.eq_dec c LF) as [->|Hc].
  - exists [], s. split; [reflexivity|]. intros [].
  - destruct H as [H|H]; [congruence|].
    destruct (IH H) as (l & r & -> & Hl).
    exists (c :: l), r. split; [reflexivity|].
    intros [Hin|Hin]; [congruence|contradiction].
Qed.

Lemma indexOf_newline_none (s : jsstring) :
  indexOf s [LF] = (-1)%Z -> ~ In LF s.
Proof.
  intros H Hin. destruct (first_newline s Hin) as (l & r & -> & Hl).
  rewrite indexOf_newline_first in H by assumption.
  pose proof (len_nonneg l). lia.
Qed.

(** Either the buffer holds no newline, or it splits at its first one. *)
Lemma newline_cases (s : jsstring) :
  ~ In LF s \/ exists l r, s = l ++ LF :: r /\ ~ In LF l.
Proof.
  destruct (in_dec N.eq_dec LF s) as [H|H].
  - right. now apply first_newline.
  - now left.
Qed.

(** *** [slice] *)

Lemma relative_index_in_range (n i : Z) :
  (0 <= i <= n)%Z -> relative_index n i = i.
Proof.
  intros H. unfold relative_index.
  destruct (i <? 0)%Z eqn:E; [apply Z.ltb_lt in E|]; lia.
Qed.

Lemma relative_index_minus_one (n : Z) :
  (1 <= n)%Z -> relative_index n (-1) = (n - 1)%Z.
Proof. intros H. unfold relative_index. simpl. lia. Qed.

Lemma slice_prefix (l r : jsstring) : slice (l ++ r) 0 (len l) = l.
Proof.
  pose proof (len_nonneg l). pose proof (len_nonneg r).
  unfold slice. rewrite len_app.
  rewrite !relative_index_in_range by lia.
  simpl skipn. rewrite Z.sub_0_r. unfold len. rewrite Nat2Z.id.
  rewrite firstn_app, firstn_all, Nat.sub_diag. simpl. apply app_nil_r.
Qed.

Lemma slice_from_suffix (l r : jsstring) (k : Z) :
  k = len l -> slice_from (l ++ r) k = r.
Proof.
  intros ->. pose proof (len_nonneg l). pose proof (len_nonneg r).
  unfold slice_from, slice. rewrite len_app.
  rewrite !relative_index_in_range by lia.
  replace (len l + len r - len l)%Z with (len r) by lia.
  unfold len. rewrite !Nat2Z.id.
  rewrite skipn_app, skipn_all, Nat.sub_diag. simpl. apply firstn_all.
Qed.

Lemma slice_from_after_newline (l r : jsstring) :
  slice_from (l ++ LF :: r) (len l + 1) = r.
Proof.
  replace (l ++ LF :: r) with ((l ++ [LF]) ++ r)
    by (rewrite <- app_assoc; reflexivity).
  apply slice_from_suffix. rewrite len_app. reflexivity.
Qed.

Lemma slice_drop_last (l : jsstring) (c : char) :
  slice (l ++ [c]) 0 (-1) = l.
Proof.
  pose proof (len_nonneg l).
  unfold slice. rewrite len_app. change (len [c]) with 1%Z.
  rewrite relative_index_minus_one by lia.
  rewrite relative_index_in_range by lia.
  simpl skipn. replace (len l + 1 - 1 - 0)%Z with (len l) by lia.
  unfold len. rewrite Nat2Z.id.
  rewrite firstn_app, firstn_all, Nat.sub_diag. simpl. apply app_nil_r.
Qed.

Lemma endsWith_last (l : jsstring) (c d : char) :
  endsWith (l ++ [c]) [d] = N.eqb d c.
Proof.
  unfold endsWith. rewrite rev_app_distr. simpl.
  now rewrite andb_true_r.
Qed.

End JSFacts.

Import JSFacts.

(* ================================================================== *)
(** * Facts about the JSON parser *)
(* ================================================================== *)

Module JsonFacts.

Lemma skip_ws_length (s : jsstring) : length (skip_ws s) <= length s.
Proof.
  induction s as [|c s IH]; simpl; [lia|].
  destruct (is_json_ws c); simpl; lia.
Qed.

Lemma skip_ws_not_ws (c : char) (s : jsstring) :
  is_json_ws c = false -> skip_ws (c :: s) = c :: s.
Proof. intros H. simpl. now rewrite H. Qed.

Lemma eat_length (c : char) (s r : jsstring) :
  eat c s = Some r -> length s = S (length r).
Proof.
  destruct s as [|d s]; simpl; [discriminate|].
  destruct (N.eqb d c); [|discriminate]. now intros [= ->].
Qed.

Lemma eat_inv (c : char) (s r : jsstring) :
  eat c s = Some r -> s = c :: r.
Proof.
  destruct s as [|d s]; simpl; [discriminate|].
  destruct (N.eqb d c) eqn:E; [|discriminate].
  apply N.eqb_eq in E. now intros [= ->]; subst.
Qed.

Lemma prepend_length (c : char) (x : option (jsstring * jsstring))
  (str r : jsstring) :
  prepend c x = Some (str, r) -> exists str', x = Some (str', r).
Proof.
  destruct x as [[str' r']|]; simpl; [|discriminate].
  intros [= _ ->]. now exists str'.
Qed.

Lemma parse_string_chars_shrinks (n : nat) :
  forall s str r, length s <= n ->
    parse_string_chars s = Some (str, r) -> length r < length s.
Proof.
  induction n as [|n IH]; intros s str r Hn H.
  - destruct s; [discriminate|simpl in Hn; lia].
  - destruct s as [|c s]; [discriminate|]. simpl in Hn. simpl in H.
    destruct (N.eqb c 34).
    { injection H as _ <-. simpl. lia. }
    destruct (N.eqb c 92).
    { destruct s as [|e s]; [discriminate|]. simpl in Hn.
      destruct (simple_escape e).
      - apply prepend_length in H as [str' H].
        apply IH in H; simpl; lia.
      - destruct (N.eqb e 117); [|discriminate].
        destruct s as [|h1 [|h2 [|h3 [|h4 s]]]]; try discriminate.
        simpl in Hn. destruct (hex4 h1 h2 h3 h4); [|discriminate].
        apply prepend_length in H as [str' H].
        apply IH in H; simpl; lia. }
    destruct (N.ltb c 32); [discriminate|].
    apply prepend_length in H as [str' H].
    apply IH in H; simpl; lia.
Qed.

Lemma take_digits_length (s : jsstring) :
  length (snd (take_digits s)) <= length s.
Proof.
  induction s as [|c s IH]; simpl; [lia|].
  destruct (is_digit c); simpl; [|lia].
  destruct (take_digits s); simpl in *. lia.
Qed.

Lemma parse_int_part_shrinks (s x r : jsstring) :
  parse_int_part s = Some (x, r) -> length r < length s.
Proof.
  destruct s as [|c s]; simpl; [discriminate|].
  destruct (N.eqb c 48).
  - intros [= _ <-]. lia.
  - destruct (is_digit c); [|discriminate].
    pose proof (take_digits_length s).
    destruct (take_digits s) as [ds r']. simpl in *.
    intros [= _ <-]. lia.
Qed.

Lemma parse_frac_part_length (s x r : jsstring) :
  parse_frac_part s = Some (x, r) -> length r <= length s.
Proof.
  destruct s as [|c s]; simpl.
  - intros [= _ <-]. simpl. lia.
  - destruct (N.eqb c 46).
    + pose proof (take_digits_length s).
      destruct (take_digits s) as [[|d ds] r']; [discriminate|].
      simpl in *. intros [= _ <-]. lia.
    + intros [= _ <-]. simpl. lia.
Qed.

Lemma parse_exp_part_length (s x r : jsstring) :
  parse_exp_part s = Some (x, r) -> length r <= length s.
Proof.
  destruct s as [|c s]; simpl.
  - intros [= _ <-]. simpl. lia.
  - destruct (N.eqb c 101 || N.eqb c 69).
    + destruct s as [|d s].
      * simpl. discriminate.
      * destruct (N.eqb d 43 || N.eqb d 45).
        -- pose proof (take_digits_length s).
           destruct (take_digits s) as [[|e ds] r']; [discriminate|].
           simpl in *. intros [= _ <-]. lia.
        -- pose proof (take_digits_length (d :: s)).
           destruct (take_digits (d :: s)) as [[|e ds] r']; [discriminate|].
           simpl in *. intros [= _ <-]. lia.
    + intros [= _ <-]. simpl. lia.
Qed.

Lemma parse_number_shrinks (s x r : jsstring) :
  parse_number s = Some (x, r) -> length r < length s.
Proof.
  unfold parse_number.
  assert (Hsign : forall sign s1,
    (match s with
     | c :: s' => if N.eqb c 45 then ([c], s') else ([], s)
     | [] => ([], s)
     end) = (sign, s1) -> length s1 <= length s).
  { intros sign s1. destruct s as [|c s'].
    - intros [= _ <-]. lia.
    - destruct (N.eqb c 45); intros [= _ <-]; simpl; lia. }
  destruct (match s with
            | c :: s' => if N.eqb c 45 then ([c], s') else ([], s)
            | [] => ([], s)
            end) as [sign s1].
  specialize (Hsign sign s1 eq_refl).
  destruct (parse_int_part s1) as [[int s2]|] eqn:Hi; [|discriminate].
  apply parse_int_part_shrinks in Hi.
  destruct (parse_frac_part s2) as [[frac s3]|] eqn:Hf; [|discriminate].
  apply parse_frac_part_length in Hf.
  destruct (parse_exp_part s3) as [[exp s4]|] eqn:He; [|discriminate].
  apply parse_exp_part_length in He.
  intros [= _ <-]. lia.
Qed.

Lemma skipn_length_lt (n : nat) (s : jsstring) :
  0 < n -> s <> [] -> length (skipn n s) < length s.
Proof.
  intros Hn Hs. rewrite length_skipn.
  destruct s; [congruence|]. cbn [length]. lia.
Qed.

(** A parser that succeeds has consumed something. *)
Lemma Parsed_inj (A : Type) (a a' : A) (r r' : jsstring) :
  Parsed a r = Parsed a' r' -> a = a' /\ r = r'.
Proof. intros H. now inversion H. Qed.

Lemma parse_shrinks (n : nat) :
  (forall s v r, parse_value n s = Parsed v r -> length r < length s)
  /\ (forall s vs r, parse_elements n s = Parsed vs r -> length r < length s)
  /\ (forall s ms r, parse_members n s = Parsed ms r -> length r < length s).
Proof.
  induction n as [|n (IHv & IHe & IHm)].
  - repeat split; intros; discriminate.
  - repeat split.
    + intros s v r H. cbn [parse_value] in H.
      destruct s as [|c s']; [discriminate|].
      destruct (N.eqb c QUOTATION_MARK).
      { destruct (parse_string_chars s') as [[str r']|] eqn:E;
          [|discriminate].
        apply Parsed_inj in H as [_ <-].
        apply parse_string_chars_shrinks with (n := length s') in E; simpl; lia. }
      pose proof (skip_ws_length s') as Hws.
      destruct (N.eqb c LBRACKET).
      { destruct (eat RBRACKET (skip_ws s')) as [r'|] eqn:E.
        - apply Parsed_inj in H as [_ <-]. apply eat_length in E. simpl. lia.
        - destruct (parse_elements n (skip_ws s')) as [vs r'| |] eqn:E';
            try discriminate.
          apply Parsed_inj in H as [_ <-]. apply IHe in E'. simpl. lia. }
      destruct (N.eqb c LBRACE).
      { destruct (eat RBRACE (skip_ws s')) as [r'|] eqn:E.
        - apply Parsed_inj in H as [_ <-]. apply eat_length in E. simpl. lia.
        - destruct (parse_members n (skip_ws s')) as [ms r'| |] eqn:E';
            try discriminate.
          apply Parsed_inj in H as [_ <-]. apply IHm in E'. simpl. lia. }
      destruct (startsWith (c :: s') (lit "true")).
      { apply Parsed_inj in H as [_ <-]. apply skipn_length_lt; [lia|discriminate]. }
      destruct (startsWith (c :: s') (lit "false")).
      { apply Parsed_inj in H as [_ <-]. apply skipn_length_lt; [lia|discriminate]. }
      destruct (startsWith (c :: s') (lit "null")).
      { apply Parsed_inj in H as [_ <-]. apply skipn_length_lt; [lia|discriminate]. }
      destruct (parse_number (c :: s')) as [[x r']|] eqn:E; [|discriminate].
      apply Parsed_inj in H as [_ <-]. now apply parse_number_shrinks in E.
    + intros s vs r H. cbn [parse_elements] in H.
      destruct (parse_value n s) as [v r1| |] eqn:Ev; try discriminate.
      apply IHv in Ev. cbn [and_then] in H.
      pose proof (skip_ws_length r1) as Hws.
      destruct (eat COMMA (skip_ws r1)) as [r2|] eqn:E.
      * apply eat_length in E. pose proof (skip_ws_length r2) as Hws2.
        destruct (parse_elements n (skip_ws r2)) as [vs' r3| |] eqn:E';
          try discriminate.
        apply Parsed_inj in H as [_ <-]. apply IHe in E'. lia.
      * destruct (eat RBRACKET (skip_ws r1)) as [r2|] eqn:E2;
          [|discriminate].
        apply Parsed_inj in H as [_ <-]. apply eat_length in E2. lia.
    + intros s ms r H. cbn [parse_members] in H.
      destruct (eat QUOTATION_MARK s) as [s'|] eqn:Eq; [|discriminate].
      apply eat_length in Eq.
      destruct (parse_string_chars s') as [[key r1]|] eqn:Es;
        [|discriminate].
      apply parse_string_chars_shrinks with (n := length s') in Es; [|lia].
      pose proof (skip_ws_length r1) as Hws1.
      destruct (eat COLON (skip_ws r1)) as [r2|] eqn:Ec; [|discriminate].
      apply eat_length in Ec. pose proof (skip_ws_length r2) as Hws2.
      destruct (parse_value n (skip_ws r2)) as [v r3| |] eqn:Ev;
        try discriminate.
      apply IHv in Ev. cbn [and_then] in H.
      pose proof (skip_ws_length r3) as Hws3.
      destruct (eat COMMA (skip_ws r3)) as [r4|] eqn:E.
      * apply eat_length in E. pose proof (skip_ws_length r4) as Hws4.
        destruct (parse_members n (skip_ws r4)) as [ms' r5| |] eqn:E';
          try discriminate.
        apply Parsed_inj in H as [_ <-]. apply IHm in E'. lia.
      * destruct (eat RBRACE (skip_ws r3)) as [r4|] eqn:E2; [|discriminate].
        apply Parsed_inj in H as [_ <-]. apply eat_length in E2. lia.
Qed.

(** The parser never runs out of fuel when it starts with more than twice
    the length of its input: a run that ends early ends on a syntax
    error. *)
Lemma parse_fuel (n : nat) :
  (forall s, 2 * length s < n -> parse_value n s <> OutOfFuel)
  /\ (forall s, 2 * length s + 1 < n -> parse_elements n s <> OutOfFuel)
  /\ (forall s, 2 * length s + 1 < n -> parse_members n s <> OutOfFuel).
Proof.
  induction n as [|n (IHv & IHe & IHm)].
  - repeat split; intros; lia.
  - destruct (parse_shrinks n) as (Sv & Se & Sm).
    repeat split.
    + intros s Hn. cbn [parse_value].
      destruct s as [|c s']; [discriminate|]. cbn [length] in Hn.
      destruct (N.eqb c QUOTATION_MARK).
      { destruct (parse_string_chars s') as [[? ?]|]; discriminate. }
      pose proof (skip_ws_length s') as Hws.
      destruct (N.eqb c LBRACKET).
      { destruct (eat RBRACKET (skip_ws s')); [discriminate|].
        specialize (IHe (skip_ws s')).
        destruct (parse_elements n (skip_ws s')); cbn [and_then];
          try discriminate. exfalso. apply IHe; [lia|reflexivity]. }
      destruct (N.eqb c LBRACE).
      { destruct (eat RBRACE (skip_ws s')); [discriminate|].
        specialize (IHm (skip_ws s')).
        destruct (parse_members n (skip_ws s')); cbn [and_then];
          try discriminate. exfalso. apply IHm; [lia|reflexivity]. }
      destruct (startsWith (c :: s') (lit "true")); [discriminate|].
      destruct (startsWith (c :: s') (lit "false")); [discriminate|].
      destruct (startsWith (c :: s') (lit "null")); [discriminate|].
      destruct (parse_number (c :: s')) as [[? ?]|]; discriminate.
    + intros s Hn. cbn [parse_elements].
      specialize (IHv s).
      destruct (parse_value n s) as [v r1| |] eqn:Ev; cbn [and_then];
        [|discriminate|exfalso; apply IHv; [lia|reflexivity]].
      apply Sv in Ev. pose proof (skip_ws_length r1) as Hws.
      destruct (eat COMMA (skip_ws r1)) as [r2|] eqn:E.
      * apply eat_length in E. pose proof (skip_ws_length r2) as Hws2.
        specialize (IHe (skip_ws r2)).
        destruct (parse_elements n (skip_ws r2)); cbn [and_then]; try discriminate.
        exfalso. apply IHe; [lia|reflexivity].
      * destruct (eat RBRACKET (skip_ws r1)); discriminate.
    + intros s Hn. cbn [parse_members].
      destruct (eat QUOTATION_MARK s) as [s'|] eqn:Eq; [|discriminate].
      apply eat_length in Eq.
      destruct (parse_string_chars s') as [[key r1]|] eqn:Es;
        [|discriminate].
      apply parse_string_chars_shrinks with (n := length s') in Es; [|lia].
      pose proof (skip_ws_length r1) as Hws1.
      destruct (eat COLON (skip_ws r1)) as [r2|] eqn:Ec; [|discriminate].
      apply eat_length in Ec. pose proof (skip_ws_length r2) as Hws2.
      specialize (IHv (skip_ws r2)).
      destruct (parse_value n (skip_ws r2)) as [v r3| |] eqn:Ev; cbn [and_then];
        [|discriminate|exfalso; apply IHv; [lia|reflexivity]].
      apply Sv in Ev. pose proof (skip_ws_length r3) as Hws3.
      destruct (eat COMMA (skip_ws r3)) as [r4|] eqn:E.
      * apply eat_length in E. pose proof (skip_ws_length r4) as Hws4.
        specialize (IHm (skip_ws r4)).
        destruct (parse_members n (skip_ws r4)); cbn [and_then]; try discriminate.
        exfalso. apply IHm; [lia|reflexivity].
      * destruct (eat RBRACE (skip_ws r3)); discriminate.
Qed.

(** [JSON_parse] gives [None] only for a syntax error. *)
Lemma JSON_parse_fuel (text : jsstring) :
  parse_value (2 * length text + 1) (skip_ws text) <> OutOfFuel.
Proof.
  apply (proj1 (parse_fuel (2 * length text + 1))).
  pose proof (skip_ws_length text). lia.
Qed.

End JsonFacts.

Import JsonFacts.

(* ================================================================== *)
(** * extractQuickReplies *)
(* ================================================================== *)

Module ExtractFacts.

(** Text that opens with a bracket parses to an array or not at all. *)
Lemma JSON_parse_bracket (x : jsstring) (v : json) :
  JSON_parse (LBRACKET :: x) = Some v -> exists elems, v = JArray elems.
Proof.
  unfold JSON_parse.
  rewrite skip_ws_not_ws by reflexivity.
  rewrite Nat.add_1_r. cbn [parse_value].
  change (N.eqb LBRACKET QUOTATION_MARK) with false.
  change (N.eqb LBRACKET LBRACKET) with true. cbv iota.
  destruct (eat RBRACKET (skip_ws x)) as [r|].
  - destruct (is_empty (skip_ws r)); [|discriminate].
    intros [= <-]. now exists [].
  - destruct (parse_elements _ (skip_ws x)) as [vs r| |];
      cbn [and_then]; try discriminate.
    destruct (is_empty (skip_ws r)); [|discriminate].
    intros [= <-]. now exists vs.
Qed.

(** An empty array followed by anything but white space is not JSON. *)
Lemma JSON_parse_empty_array_then (c : char) (x : jsstring) :
  is_json_ws c = false ->
  JSON_parse (LBRACKET :: RBRACKET :: c :: x) = None.
Proof.
  intros Hc. unfold JSON_parse.
  rewrite skip_ws_not_ws by reflexivity.
  rewrite Nat.add_1_r. cbn [parse_value].
  change (N.eqb LBRACKET QUOTATION_MARK) with false.
  change (N.eqb LBRACKET LBRACKET) with true. cbv iota.
  rewrite skip_ws_not_ws by reflexivity.
  change (eat RBRACKET (RBRACKET :: c :: x)) with (Some (c :: x)).
  cbv iota. now rewrite skip_ws_not_ws by assumption.
Qed.

(** *** What a match of the regular expression looks like *)

Lemma lazy_group_then_close_sound (s g rest : jsstring) :
  lazy_group_then_close s = Some (g, rest) ->
  s = g ++ MARKER_CLOSE ++ rest /\ g <> [].
Proof.
  revert g rest. induction s as [|c s IH]; intros g rest H;
    cbn [lazy_group_then_close] in H; [discriminate|].
  destruct (is_line_terminator c); [discriminate|].
  destruct (startsWith s MARKER_CLOSE) eqn:E.
  - injection H as <- <-. split; [|discriminate].
    apply startsWith_inv in E. simpl. f_equal. exact E.
  - destruct (lazy_group_then_close s) as [[g' rest']|]; [|discriminate].
    injection H as <- <-. destruct (IH g' rest' eq_refl) as [-> _].
    split; [reflexivity|discriminate].
Qed.

Lemma match_here_sound (s g rest : jsstring) :
  match_here s = Some (g, rest) ->
  s = MARKER_OPEN ++ g ++ MARKER_CLOSE ++ rest /\ g <> [].
Proof.
  unfold match_here. destruct (startsWith s MARKER_OPEN) eqn:E;
    [|discriminate].
  intros H. apply lazy_group_then_close_sound in H as [H Hg].
  split; [|exact Hg]. apply startsWith_inv in E. rewrite E at 1.
  now rewrite H.
Qed.

Lemma regexp_exec_sound (s : jsstring) (m : RegExpMatch) :
  regexp_exec s = Some m ->
  s = before m ++ MARKER_OPEN ++ group1 m ++ MARKER_CLOSE ++ after m
  /\ group1 m <> [].
Proof.
  revert m. induction s as [|c s IH]; intros m H.
  - simpl in H. discriminate.
  - cbn [regexp_exec] in H.
    destruct (match_here (c :: s)) as [[g rest]|] eqn:E.
    + injection H as <-. simpl. now apply match_here_sound.
    + destruct (regexp_exec s) as [m'|]; [|discriminate].
      injection H as <-. destruct (IH m' eq_refl) as [Hs Hg].
      simpl. split; [now f_equal|exact Hg].
Qed.

Lemma replace_first_match_found (s : jsstring) (m : RegExpMatch) :
  regexp_exec s = Some m -> replace_first_match s = before m ++ after m.
Proof. unfold replace_first_match. now intros ->. Qed.

(** Both ways out of [extractQuickReplies] that return the text as it
    came. *)
Lemma extractQuickReplies_unchanged (text : jsstring) :
  regexp_exec text = None
  \/ (exists m, regexp_exec text = Some m
                /\ JSON_parse (lit "[" ++ group1 m ++ lit "]") = None) ->
  extractQuickReplies text
  = {| cleanContent := text; quickReplies := JArray [] |}.
Proof.
  unfold extractQuickReplies. intros [H | (m & H & Hp)]; rewrite H.
  - reflexivity.
  - now rewrite Hp.
Qed.

End ExtractFacts.

Import ExtractFacts.

(** C7. Annotation stripping: the text
    [Hello there<!--QUICK_REPLIES:["Yes","No"]-->] yields the clean
    content [Hello there] and the quick replies [Yes] and [No]. *)
Theorem annotation_stripping_example :
  extractQuickReplies (jsq "Hello there<!--QUICK_REPLIES:['Yes','No']-->")
  = {| cleanContent := lit "Hello there";
       quickReplies := JArray [JString (lit "Yes"); JString (lit "No")] |}.
Proof. vm_compute. reflexivity. Qed.

(** C8. Fallback: when the marker is not found, or is found but the
    bracketed capture is not JSON, [extractQuickReplies] returns the text
    as it got it (marker in place, nothing trimmed) and no quick
    replies. *)
Theorem annotation_fallback (text : jsstring) :
  regexp_exec text = None
  \/ (exists m, regexp_exec text = Some m
                /\ JSON_parse (lit "[" ++ group1 m ++ lit "]") = None) ->
  extractQuickReplies text
  = {| cleanContent := text; quickReplies := JArray [] |}.
Proof.
  intros [Hnone | (m & Hm & Hparse)]; apply extractQuickReplies_unchanged.
  - now left.
  - right. now exists m.
Qed.

Lemma annotation_fallback_witness :
  let text := lit "  Sure! <!--QUICK_REPLIES:[Yes, No]-->" in
  (exists m, regexp_exec text = Some m
             /\ JSON_parse (lit "[" ++ group1 m ++ lit "]") = None)
  /\ extractQuickReplies text
     = {| cleanContent := text; quickReplies := JArray [] |}.
Proof.
  assert (H : exists m,
    regexp_exec (lit "  Sure! <!--QUICK_REPLIES:[Yes, No]-->") = Some m
    /\ JSON_parse (lit "[" ++ group1 m ++ lit "]") = None).
  { eexists. split; vm_compute; reflexivity. }
  split; [exact H|].
  apply (annotation_fallback (lit "  Sure! <!--QUICK_REPLIES:[Yes, No]-->")).
  right. exact H.
Defined.

(** C3, as the code has it. When the marker is found and the bracketed
    capture parses, the quick replies returned are the array it parses
    to, element for element; nothing checks that the elements are
    strings. *)
Theorem quick_replies_are_the_parsed_array
  (text : jsstring) (m : RegExpMatch) (replies : json) :
  regexp_exec text = Some m ->
  JSON_parse (lit "[" ++ group1 m ++ lit "]") = Some replies ->
  (exists elems, replies = JArray elems)
  /\ extractQuickReplies text
     = {| cleanContent := trim (before m ++ after m);
          quickReplies := replies |}.
Proof.
  intros Hm Hp. split.
  - apply JSON_parse_bracket with (x := group1 m ++ lit "]"). exact Hp.
  - unfold extractQuickReplies. rewrite Hm, Hp.
    now rewrite replace_first_match_found with (m := m).
Qed.

Lemma quick_replies_are_the_parsed_array_witness :
  let text := jsq "Pick one <!--QUICK_REPLIES:['Zoo',2]--> " in
  extractQuickReplies text
  = {| cleanContent := lit "Pick one";
       quickReplies := JArray [JString (lit "Zoo"); JNumber (lit "2")] |}.
Proof.
  pose (text := jsq "Pick one <!--QUICK_REPLIES:['Zoo',2]--> ").
  pose (m := {| before := lit "Pick one ";
                group1 := jsq "'Zoo',2";
                after := lit " " |}).
  exact (proj2 (quick_replies_are_the_parsed_array text m
                  (JArray [JString (lit "Zoo"); JNumber (lit "2")])
                  eq_refl eq_refl)).
Defined.

(** C3 as the claim states it fails: a number in the annotation comes
    back as a number. *)
Lemma quick_replies_need_not_be_strings :
  let text := jsq "<!--QUICK_REPLIES:[1]-->" in
  (exists m, regexp_exec text = Some m
             /\ JSON_parse (lit "[" ++ group1 m ++ lit "]")
                = Some (JArray [JNumber (lit "1")]))
  /\ quickReplies (extractQuickReplies text) = JArray [JNumber (lit "1")]
  /\ is_string_array (quickReplies (extractQuickReplies text)) = false.
Proof.
  split; [|split].
  - eexists. split; vm_compute; reflexivity.
  - vm_compute. reflexivity.
  - vm_compute. reflexivity.
Qed.

Lemma all_markers_empty_head (s : jsstring) :
  all_markers_empty s = true ->
  startsWith s MARKER_OPEN = true ->
  startsWith (skipn (length MARKER_OPEN) s) MARKER_CLOSE = true.
Proof.
  intros H Hs. destruct s as [|c s]; [discriminate Hs|].
  cbn [all_markers_empty] in H. apply andb_true_iff in H as [H _].
  now rewrite Hs in H.
Qed.

Lemma all_markers_empty_tail (c : char) (s : jsstring) :
  all_markers_empty (c :: s) = true -> all_markers_empty s = true.
Proof.
  cbn [all_markers_empty]. intros H.
  now apply andb_true_iff in H as [_ H].
Qed.

Lemma all_markers_empty_sound (text : jsstring) :
  all_markers_empty text = true ->
  forall pre post, text = pre ++ MARKER_OPEN ++ post ->
                   exists post', post = MARKER_CLOSE ++ post'.
Proof.
  intros H pre. revert text H.
  induction pre as [|c pre IH]; intros text H post ->.
  - change ([] ++ MARKER_OPEN ++ post) with (MARKER_OPEN ++ post) in H.
    apply all_markers_empty_head in H; [|apply startsWith_app].
    rewrite skipn_app, skipn_all, Nat.sub_diag in H.
    apply startsWith_iff in H. exact H.
  - apply all_markers_empty_tail in H. now apply (IH _ H).
Qed.

(** C10, as the code has it. In a text where every opening of the marker
    ([MARKER_OPEN]) is at once followed by its closing ([MARKER_CLOSE]),
    so that all its markers have empty brackets, nothing is recognised:
    the text comes back unchanged, with no quick replies. The group of
    the pattern takes at least one character, so the pattern either
    finds no match, or runs on to a later closing with a capture that
    starts with a closing bracket, which is not JSON. *)
Theorem empty_marker_is_not_recognised (text : jsstring) :
  (forall pre post, text = pre ++ MARKER_OPEN ++ post ->
                    exists post', post = MARKER_CLOSE ++ post') ->
  extractQuickReplies text
  = {| cleanContent := text; quickReplies := JArray [] |}
  /\ (forall m, regexp_exec text = Some m -> group1 m <> []).
Proof.
  intros Hempty.
  split; [|intros m Hm; now destruct (regexp_exec_sound _ _ Hm)].
  apply extractQuickReplies_unchanged.
  destruct (regexp_exec text) as [m|] eqn:Hm; [right|now left].
  exists m. split; [reflexivity|].
  destruct (regexp_exec_sound _ _ Hm) as [Htext Hg].
  destruct (Hempty _ _ Htext) as [post' Hpost].
  destruct (group1 m) as [|c g]; [congruence|].
  injection Hpost as -> Hpost.
  destruct g as [|d g].
  - discriminate Hpost.
  - injection Hpost as -> _.
    now apply JSON_parse_empty_array_then.
Qed.

Lemma empty_marker_is_not_recognised_witness :
  let text := lit "All done.<!--QUICK_REPLIES:[]-->" in
  extractQuickReplies text
  = {| cleanContent := text; quickReplies := JArray [] |}.
Proof.
  apply (proj1 (empty_marker_is_not_recognised
                  (lit "All done.<!--QUICK_REPLIES:[]-->")
                  (all_markers_empty_sound
                     (lit "All done.<!--QUICK_REPLIES:[]-->") eq_refl))).
Defined.

(** C10 as the claim states it fails: a text may hold the marker with
    empty brackets and still be changed, when the pattern matches a
    marker elsewhere in it. *)
Lemma empty_marker_does_not_protect_the_text :
  let text := jsq "<!--QUICK_REPLIES:['a']--><!--QUICK_REPLIES:[]-->" in
  text = jsq "<!--QUICK_REPLIES:['a']-->" ++ lit "<!--QUICK_REPLIES:[]-->"
  /\ extractQuickReplies text
     = {| cleanContent := lit "<!--QUICK_REPLIES:[]-->";
          quickReplies := JArray [JString (lit "a")] |}.
Proof. split; vm_compute; reflexivity. Qed.

(* ================================================================== *)
(** * Trimming and carriage returns *)
(* ================================================================== *)

Module TrimFacts.

Lemma trimStart_nil (s : jsstring) :
  trimStart s = [] <-> forallb is_white_space s = true.
Proof.
  induction s as [|c s IH]; simpl; [tauto|].
  destruct (is_white_space c); simpl; [exact IH|].
  split; discriminate.
Qed.

Lemma trimStart_keeps_nonblank (s : jsstring) :
  forallb is_white_space (trimStart s) = forallb is_white_space s.
Proof.
  induction s as [|c s IH]; simpl; [reflexivity|].
  destruct (is_white_space c) eqn:E; simpl; [exact IH|].
  now rewrite E.
Qed.

Lemma forallb_rev (f : char -> bool) (s : jsstring) :
  forallb f (rev s) = forallb f s.
Proof.
  induction s as [|c s IH]; simpl; [reflexivity|].
  rewrite forallb_app, IH. simpl. rewrite andb_true_r. apply andb_comm.
Qed.

(** [trim] leaves nothing exactly when every character is white space. *)
Lemma trim_nil (s : jsstring) :
  trim s = [] <-> forallb is_white_space s = true.
Proof.
  unfold trim, trimEnd.
  rewrite <- trimStart_keeps_nonblank, <- forallb_rev, <- trimStart_nil.
  split; intros H.
  - apply (f_equal (@rev char)) in H. now rewrite rev_involutive in H.
  - now rewrite H.
Qed.

Lemma trim_nonblank (s : jsstring) (c : char) :
  In c s -> is_white_space c = false -> trim s <> [].
Proof.
  intros Hin Hc H. apply trim_nil in H.
  rewrite forallb_forall in H. specialize (H c Hin). congruence.
Qed.

Lemma trimStart_snoc_ws (s : jsstring) (c : char) :
  is_white_space c = true ->
  trimStart (s ++ [c]) = if forallb is_white_space s then []
                         else trimStart s ++ [c].
Proof.
  intros Hc. induction s as [|d s IH]; simpl.
  - now rewrite Hc.
  - destruct (is_white_space d); simpl; [exact IH|reflexivity].
Qed.

Lemma trimEnd_snoc_ws (s : jsstring) (c : char) :
  is_white_space c = true -> trimEnd (s ++ [c]) = trimEnd s.
Proof.
  intros Hc. unfold trimEnd. rewrite rev_app_distr. simpl.
  now rewrite Hc.
Qed.

(** White space at the end makes no difference to [trim]. *)
Lemma trim_snoc_ws (s : jsstring) (c : char) :
  is_white_space c = true -> trim (s ++ [c]) = trim s.
Proof.
  intros Hc. unfold trim. rewrite trimStart_snoc_ws by assumption.
  destruct (forallb is_white_space s) eqn:E.
  - apply trimStart_nil in E. now rewrite E.
  - now apply trimEnd_snoc_ws.
Qed.

(** *** [strip_cr] *)

Lemma endsWith_cr_inv (line : jsstring) :
  endsWith line [CR] = true -> exists l, line = l ++ [CR].
Proof.
  destruct line as [|c line] using rev_ind; [discriminate|].
  rewrite endsWith_last. intros H. apply N.eqb_eq in H. subst c.
  now exists line.
Qed.

Lemma strip_cr_cases (line : jsstring) :
  (strip_cr line = line /\ endsWith line [CR] = false)
  \/ (line = strip_cr line ++ [CR]).
Proof.
  unfold strip_cr. destruct (endsWith line [CR]) eqn:E.
  - right. destruct (endsWith_cr_inv _ E) as [l ->].
    now rewrite slice_drop_last.
  - now left.
Qed.

Lemma strip_cr_snoc (l : jsstring) : strip_cr (l ++ [CR]) = l.
Proof.
  unfold strip_cr. rewrite endsWith_last. simpl.
  apply slice_drop_last.
Qed.

Lemma strip_cr_incl (line : jsstring) (c : char) :
  In c (strip_cr line) -> In c line.
Proof.
  destruct (strip_cr_cases line) as [[-> _]|H]; [tauto|].
  intros Hin. rewrite H. apply in_or_app. now left.
Qed.

Lemma strip_cr_length (line : jsstring) :
  length (strip_cr line) <= length line.
Proof.
  destruct (strip_cr_cases line) as [[-> _]|H]; [lia|].
  rewrite H at 2. rewrite length_app. lia.
Qed.

Lemma startsWith_snoc (x p : jsstring) (c : char) :
  ~ In c p -> startsWith (x ++ [c]) p = startsWith x p.
Proof.
  revert x. induction p as [|d p IH]; intros x Hc; [reflexivity|].
  destruct x as [|e x]; simpl.
  - destruct (N.eqb d c) eqn:E; [|reflexivity].
    apply N.eqb_eq in E. exfalso. apply Hc. now left.
  - rewrite IH; [reflexivity|]. intros H. apply Hc. now right.
Qed.

Lemma slice_from_data (y : jsstring) : slice_from (DATA_PREFIX ++ y) 6 = y.
Proof. now apply slice_from_suffix. Qed.

(** Stripping the carriage return changes neither the prefix nor the
    payload of a data record. *)
Lemma strip_cr_payload (line : jsstring) :
  startsWith line DATA_PREFIX = true ->
  startsWith (strip_cr line) DATA_PREFIX = true
  /\ trim (slice_from (strip_cr line) 6) = trim (slice_from line 6).
Proof.
  intros H. destruct (strip_cr_cases line) as [[-> _]|E]; [now split|].
  rewrite E in H. rewrite startsWith_snoc in H.
  2:{ intros F. cbv in F. intuition discriminate. }
  split; [exact H|].
  rewrite E at 2. apply startsWith_inv in H.
  change (length DATA_PREFIX) with 6 in H. rewrite H.
  rewrite <- app_assoc. rewrite !slice_from_data.
  symmetry. now apply trim_snoc_ws.
Qed.

End TrimFacts.

Import TrimFacts.

(* ================================================================== *)
(** * upsertAssistant: one message per reply *)
(* ================================================================== *)

Module UpsertFacts.

Lemma item_last (A : Type) (l : list A) (a : A) :
  item (l ++ [a]) (len_list (l ++ [a]) - 1) = Some a.
Proof.
  unfold item, len_list. rewrite length_app. simpl length.
  destruct (Z.of_nat (length l + 1) - 1 <? 0)%Z eqn:E;
    [apply Z.ltb_lt in E; lia|].
  replace (Z.to_nat (Z.of_nat (length l + 1) - 1)) with (length l) by lia.
  rewrite nth_error_app2 by lia. now rewrite Nat.sub_diag.
Qed.

Lemma item_In (A : Type) (l : list A) (i : Z) (a : A) :
  item l i = Some a -> In a l.
Proof.
  unfold item. destruct (i <? 0)%Z; [discriminate|]. apply nth_error_In.
Qed.

Lemma map_from_other (A : Type) (g : A -> A) (k : Z) (l : list A) (i : Z) :
  (i + len_list l <= k)%Z ->
  map_from i (fun m j => if (j =? k)%Z then g m else m) l = l.
Proof.
  revert i. induction l as [|a l IH]; intros i H; simpl; [reflexivity|].
  unfold len_list in H. simpl length in H.
  destruct (i =? k)%Z eqn:E; [apply Z.eqb_eq in E; lia|].
  f_equal. apply IH. unfold len_list. lia.
Qed.

Lemma map_from_app (A B : Type) (f : A -> Z -> B) (l l' : list A) (i : Z) :
  map_from i f (l ++ l') = map_from i f l ++ map_from (i + len_list l) f l'.
Proof.
  revert i. induction l as [|a l IH]; intros i; simpl.
  - unfold len_list. simpl. now rewrite Z.add_0_r.
  - rewrite IH. do 3 f_equal. unfold len_list. simpl length. lia.
Qed.

(** [prev.map] with the guard [i === prev.length - 1] rewrites the last
    message and no other. *)
Lemma mapi_last (A : Type) (g : A -> A) (l : list A) (a : A) :
  mapi (fun m i => if (i =? len_list (l ++ [a]) - 1)%Z then g m else m)
       (l ++ [a])
  = l ++ [g a].
Proof.
  unfold mapi. rewrite map_from_app.
  assert (E : (len_list (l ++ [a]) - 1 = len_list l)%Z).
  { unfold len_list. rewrite length_app. simpl. lia. }
  rewrite E. rewrite map_from_other by lia.
  simpl. now rewrite Z.eqb_refl.
Qed.

(** The first call for a reply appends its message: the last message of
    the list is not the reply's. *)
Lemma upsert_update_appends (aid : jsstring) (time : Z) (view : MessageView)
  (prev : list ChatMessage.t) :
  (forall m, In m prev -> ChatMessage.id m <> aid) ->
  upsert_update aid time view prev
  = prev ++ [ {| ChatMessage.id := aid;
                 ChatMessage.role := assistant;
                 ChatMessage.content := cleanContent view;
                 ChatMessage.timestamp := time;
                 ChatMessage.quickReplies := Some (quickReplies view) |} ].
Proof.
  intros Hfresh. unfold upsert_update.
  destruct (item prev (len_list prev - 1)) as [last|] eqn:E; [|reflexivity].
  apply item_In in E. apply Hfresh in E. apply eqb_neq in E.
  now rewrite E, andb_false_r.
Qed.

(** Every later call rewrites that message where it stands. *)
Lemma upsert_update_replaces (aid : jsstring) (time : Z) (view : MessageView)
  (prev : list ChatMessage.t) (reply : ChatMessage.t) :
  ChatMessage.id reply = aid ->
  ChatMessage.role reply = assistant ->
  upsert_update aid time view (prev ++ [reply])
  = prev ++ [ {| ChatMessage.id := aid;
                 ChatMessage.role := assistant;
                 ChatMessage.content := cleanContent view;
                 ChatMessage.timestamp := ChatMessage.timestamp reply;
                 ChatMessage.quickReplies := Some (quickReplies view) |} ].
Proof.
  intros Hid Hrole. unfold upsert_update.
  rewrite item_last, Hid, Hrole, eqb_refl. simpl andb. cbv iota.
  rewrite mapi_last. now rewrite Hid, Hrole.
Qed.

Lemma upsertAssistant_soFar (chunk : jsstring) (st : state) :
  assistantSoFar (upsertAssistant chunk st) = assistantSoFar st ++ chunk.
Proof. reflexivity. Qed.

Lemma upsertAssistant_first (aid : jsstring) (chunk : jsstring) (st : state) :
  assistantId st = aid ->
  (forall m, In m (messages st) -> ChatMessage.id m <> aid) ->
  reply_in_place aid (messages st) (upsertAssistant chunk st).
Proof.
  intros Hid Hfresh. split; [exact Hid|].
  unfold upsertAssistant, setMessages. cbn [messages assistantSoFar
    set_assistantSoFar assistantId clock].
  rewrite Hid, upsert_update_appends by assumption.
  eexists. split; [reflexivity|]. now repeat split.
Qed.

Lemma upsertAssistant_next (aid : jsstring) (prev : list ChatMessage.t)
  (chunk : jsstring) (st : state) :
  reply_in_place aid prev st ->
  reply_in_place aid prev (upsertAssistant chunk st).
Proof.
  intros (Hid & reply & Hm & Hrid & Hrole & _). split; [exact Hid|].
  unfold upsertAssistant, setMessages. cbn [messages assistantSoFar
    set_assistantSoFar assistantId clock].
  rewrite Hid, Hm, (upsert_update_replaces _ _ _ _ _ Hrid Hrole).
  eexists. split; [reflexivity|]. now repeat split.
Qed.

Lemma upserts_keep_reply (aid : jsstring) (prev : list ChatMessage.t)
  (fragments : list jsstring) (st : state) :
  reply_in_place aid prev st ->
  reply_in_place aid prev
    (fold_left (fun s chunk => upsertAssistant chunk s) fragments st).
Proof.
  revert st. induction fragments as [|c fragments IH]; intros st H;
    [exact H|].
  simpl. apply IH. now apply upsertAssistant_next.
Qed.

Lemma upserts_soFar (fragments : list jsstring) (st : state) :
  assistantSoFar
    (fold_left (fun s chunk => upsertAssistant chunk s) fragments st)
  = assistantSoFar st ++ concat fragments.
Proof.
  revert st. induction fragments as [|c fragments IH]; intros st; simpl.
  - now rewrite app_nil_r.
  - rewrite IH, upsertAssistant_soFar. now rewrite app_assoc.
Qed.

Lemma filter_none (A : Type) (f : A -> bool) (l : list A) :
  (forall a, In a l -> f a = false) -> filter f l = [].
Proof.
  induction l as [|a l IH]; intros H; simpl; [reflexivity|].
  rewrite (H a) by now left. apply IH. intros b Hb. apply H. now right.
Qed.

Lemma last_is_reply_true (aid : jsstring) (prev : list ChatMessage.t) :
  last_is_reply aid prev = true ->
  exists l last,
    prev = l ++ [last]
    /\ ChatMessage.id last = aid
    /\ ChatMessage.role last = assistant.
Proof.
  unfold last_is_reply. intros H.
  destruct prev as [|m prev] using rev_ind; [discriminate|].
  rewrite item_last in H. apply andb_true_iff in H as [Hr Hi].
  apply eqb_eq in Hi. exists prev, m. repeat split; [exact Hi|].
  now destruct (ChatMessage.role m).
Qed.

Lemma upsert_update_new (aid : jsstring) (time : Z) (view : MessageView)
  (prev : list ChatMessage.t) :
  last_is_reply aid prev = false ->
  upsert_update aid time view prev
  = prev ++ [ {| ChatMessage.id := aid;
                 ChatMessage.role := assistant;
                 ChatMessage.content := cleanContent view;
                 ChatMessage.timestamp := time;
                 ChatMessage.quickReplies := Some (quickReplies view) |} ].
Proof.
  intros H. unfold upsert_update. fold (last_is_reply aid prev).
  now rewrite H.
Qed.

(** The first call of a reply: the reply's message comes after the
    earlier messages, in the place of the last one when that was it
    already. *)
Lemma upsertAssistant_starts (chunk : jsstring) (st : state) :
  reply_in_place (assistantId st)
    (if last_is_reply (assistantId st) (messages st)
     then removelast (messages st) else messages st)
    (upsertAssistant chunk st).
Proof.
  split; [reflexivity|].
  unfold upsertAssistant, setMessages.
  cbn [messages assistantSoFar assistantId clock set_assistantSoFar].
  destruct (last_is_reply (assistantId st) (messages st)) eqn:E.
  - destruct (last_is_reply_true _ _ E) as (l & last & -> & Hid & Hrole).
    rewrite removelast_last.
    rewrite (upsert_update_replaces _ _ _ _ _ Hid Hrole).
    eexists. split; [reflexivity|]. now repeat split.
  - rewrite (upsert_update_new _ _ _ _ E).
    eexists. split; [reflexivity|]. now repeat split.
Qed.

Lemma count_id_snoc (aid : jsstring) (l : list ChatMessage.t)
  (reply : ChatMessage.t) :
  ChatMessage.id reply = aid ->
  count_id aid (l ++ [reply]) = S (count_id aid l).
Proof.
  intros H. unfold count_id. rewrite filter_app, length_app.
  cbn [filter]. rewrite H, eqb_refl. simpl. lia.
Qed.

Lemma count_id_none (aid : jsstring) (l : list ChatMessage.t) :
  count_id aid l = 0%nat <-> forall m, In m l -> ChatMessage.id m <> aid.
Proof.
  unfold count_id. split.
  - intros H m Hin Hid.
    assert (Hf : In m (filter (fun m => eqb (ChatMessage.id m) aid) l)).
    { apply filter_In. split; [exact Hin|]. now apply eqb_eq. }
    destruct (filter _ l); [contradiction|discriminate].
  - intros H. rewrite filter_none; [reflexivity|].
    intros m Hin. apply eqb_neq. now apply H.
Qed.

End UpsertFacts.

Import UpsertFacts.

(** C6. Single in-place assistant message: after N >= 1 calls of
    [upsertAssistant] in a row for one reply, the running text empty
    before the first, the list is the earlier messages followed by one
    message with the reply's id, the role assistant and the clean
    content of all N fragments put together; the earlier messages are
    those of the list before the calls, its last one left out when that
    was already the reply's own, which is then replaced in place. The
    calls test the last message only: the messages with the reply's id
    are this one and every earlier one that carries it, so it is the
    only one exactly when no earlier message carries the id. *)
Theorem single_assistant_message
  (st : state) (fragments : list jsstring) :
  fragments <> [] ->
  assistantSoFar st = [] ->
  let aid := assistantId st in
  let st' := fold_left (fun s chunk => upsertAssistant chunk s) fragments st in
  let earlier := if last_is_reply aid (messages st)
                 then removelast (messages st) else messages st in
  (exists reply,
     messages st' = earlier ++ [reply]
     /\ ChatMessage.id reply = aid
     /\ ChatMessage.role reply = assistant
     /\ ChatMessage.content reply
        = cleanContent (extractQuickReplies (concat fragments)))
  /\ count_id aid (messages st') = S (count_id aid earlier)
  /\ (count_id aid (messages st') = 1%nat
      <-> forall m, In m earlier -> ChatMessage.id m <> aid).
Proof.
  intros Hne Hempty aid st' earlier.
  destruct fragments as [|c fragments]; [congruence|].
  assert (H : reply_in_place aid earlier st').
  { unfold st'. cbn [fold_left]. apply upserts_keep_reply.
    apply upsertAssistant_starts. }
  assert (Hso : assistantSoFar st' = concat (c :: fragments)).
  { unfold st'. now rewrite upserts_soFar, Hempty. }
  destruct H as (_ & reply & Hm & Hid & Hrole & Hcontent).
  assert (Hcount : count_id aid (messages st') = S (count_id aid earlier)).
  { rewrite Hm. now apply count_id_snoc. }
  split; [|split].
  - exists reply. rewrite <- Hso. now repeat split.
  - exact Hcount.
  - rewrite Hcount, <- count_id_none. split; intros F; [now injection F|].
    now rewrite F.
Qed.

Lemma single_assistant_message_witness :
  let prev := [ {| ChatMessage.id := lit "1700000000000";
                   ChatMessage.role := user;
                   ChatMessage.content := lit "Any parks nearby?";
                   ChatMessage.timestamp := 1700000000000%Z;
                   ChatMessage.quickReplies := None |} ] in
  let st := start_stream (lit "1700000000001") 1700000000950%Z prev in
  let st' := fold_left (fun s chunk => upsertAssistant chunk s)
               [lit "Try "; lit "Hyde Park"; jsq "<!--QUICK_REPLIES:['Map']-->"]
               st in
  count_id (lit "1700000000001") (messages st') = 1%nat
  /\ exists reply,
       messages st' = prev ++ [reply]
       /\ ChatMessage.id reply = lit "1700000000001"
       /\ ChatMessage.role reply = assistant
       /\ ChatMessage.content reply
          = cleanContent
              (extractQuickReplies
                 (concat [lit "Try "; lit "Hyde Park";
                          jsq "<!--QUICK_REPLIES:['Map']-->"])).
Proof.
  intros prev st st'.
  destruct (single_assistant_message st
              [lit "Try "; lit "Hyde Park"; jsq "<!--QUICK_REPLIES:['Map']-->"]
              ltac:(discriminate) eq_refl) as (Hreply & _ & Honly).
  split; [|exact Hreply].
  apply Honly. intros m [<-|[]]. vm_compute. discriminate.
Defined.

(** C6 as the claim states it fails: the clock steps back one
    millisecond between lines 41 and 51, the user's message and the
    reply get the same id, and the list holds two messages with it. *)
Lemma earlier_message_with_the_reply_id_stays :
  let userMsg := {| ChatMessage.id := lit "1700000000001";
                    ChatMessage.role := user;
                    ChatMessage.content := lit "Any parks nearby?";
                    ChatMessage.timestamp := 1700000000001%Z;
                    ChatMessage.quickReplies := None |} in
  let st := start_stream (lit "1700000000001") 1700000000950%Z [userMsg] in
  let st' := fold_left (fun s chunk => upsertAssistant chunk s)
               [lit "Try "; lit "Hyde Park"] st in
  messages st'
  = [ userMsg;
      {| ChatMessage.id := lit "1700000000001";
         ChatMessage.role := assistant;
         ChatMessage.content := lit "Try Hyde Park";
         ChatMessage.timestamp := 1700000000950%Z;
         ChatMessage.quickReplies := Some (JArray []) |} ]
  /\ count_id (lit "1700000000001") (messages st') = 2%nat.
Proof. vm_compute. split; reflexivity. Qed.

(* ================================================================== *)
(** * The decode loop *)
(* ================================================================== *)

(* ================================================================== *)
(** * Lines of a feed *)
(* ================================================================== *)

Module FramingFacts.

Lemma restore_app (a b : list jsstring) :
  restore (a ++ b) = restore a ++ restore b.
Proof. unfold restore. now rewrite map_app, concat_app. Qed.

Lemma restore_ends (recs : list jsstring) :
  restore recs = [] \/ exists a, restore recs = a ++ [LF].
Proof.
  destruct recs as [|r recs] using rev_ind; [now left|right].
  rewrite restore_app. unfold restore at 2. simpl. rewrite app_nil_r.
  exists (restore recs ++ r). now rewrite app_assoc.
Qed.

Lemma split_no_sep (s : jsstring) (sep : char) :
  ~ In sep s -> split s sep = [s].
Proof.
  induction s as [|c s IH]; intros H; [reflexivity|].
  cbn [split]. destruct (N.eqb c sep) eqn:E.
  - apply N.eqb_eq in E. subst c. exfalso. apply H. now left.
  - rewrite IH; [reflexivity|]. intros Hin. apply H. now right.
Qed.

Lemma split_nonempty (s : jsstring) (sep : char) : split s sep <> [].
Proof.
  destruct s as [|c s]; cbn [split]; [discriminate|].
  destruct (N.eqb c sep); [discriminate|].
  destruct (split s sep); discriminate.
Qed.

Lemma last_cons (A : Type) (a d : A) (l : list A) :
  l <> [] -> last (a :: l) d = last l d.
Proof. destruct l; [congruence|reflexivity]. Qed.

Lemma split_after_sep (a b : jsstring) (sep : char) :
  exists p ps,
    split (a ++ sep :: b) sep = p :: ps
    /\ ps <> []
    /\ last ps [] = last (split b sep) [].
Proof.
  induction a as [|c a (p & ps & E & Hps & Hlast)].
  - exists [], (split b sep). cbn [app split]. rewrite N.eqb_refl.
    repeat split. apply split_nonempty.
  - rewrite <- app_comm_cons. cbn [split]. rewrite E.
    destruct (N.eqb c sep).
    + exists [], (p :: ps). repeat split; [discriminate|].
      now rewrite last_cons.
    + exists (c :: p), ps. now repeat split.
Qed.

(** The tail of a feed that ends where the buffer [b] begins. *)
Lemma unterminated_tail_app (x b : jsstring) :
  ~ In LF b ->
  x = [] \/ (exists a, x = a ++ [LF]) ->
  unterminated_tail (x ++ b) = b.
Proof.
  intros Hb [->|[a ->]]; unfold unterminated_tail.
  - simpl. now rewrite split_no_sep.
  - rewrite <- app_assoc. simpl app.
    destruct (split_after_sep a b LF) as (p & ps & -> & Hps & Hlast).
    rewrite last_cons by assumption. rewrite Hlast.
    now rewrite split_no_sep.
Qed.

Lemma indexOf_none_inv (s p : jsstring) :
  indexOf s p = (-1)%Z ->
  startsWith s p = false
  /\ forall c s', s = c :: s' -> indexOf s' p = (-1)%Z.
Proof.
  destruct s as [|c s]; cbn [indexOf].
  - destruct (startsWith [] p); [discriminate|].
    intros _. split; [reflexivity|]. discriminate.
  - destruct (startsWith (c :: s) p); [discriminate|].
    pose proof (indexOf_ge s p).
    destruct (indexOf s p =? -1)%Z eqn:E; [|lia].
    apply Z.eqb_eq in E. intros _. split; [reflexivity|].
    now intros c' s' [= _ <-].
Qed.

(** [s.indexOf(p) === -1] says that [p] occurs nowhere in [s]. *)
Lemma indexOf_absent (s p : jsstring) :
  indexOf s p = (-1)%Z -> forall a b, s <> a ++ p ++ b.
Proof.
  intros H a. revert s H. induction a as [|c a IH]; intros s H b E.
  - apply indexOf_none_inv in H as [H _]. subst s.
    simpl in H. now rewrite startsWith_app in H.
  - apply indexOf_none_inv in H as [_ H].
    apply (IH _ (H _ _ E) b eq_refl).
Qed.

Lemma Forall_of_forallb (A : Type) (f : A -> bool) (l : list A) :
  forallb f l = true -> Forall (fun a => f a = true) l.
Proof.
  induction l as [|a l IH]; intros H; constructor;
    apply andb_true_iff in H as [Ha Hl]; auto.
Qed.

Lemma split_at_first (raw rest : jsstring) (sep : char) :
  ~ In sep raw -> split (raw ++ sep :: rest) sep = raw :: split rest sep.
Proof.
  induction raw as [|c raw IH]; intros H.
  - cbn [app split]. now rewrite N.eqb_refl.
  - rewrite <- app_comm_cons. cbn [split].
    destruct (N.eqb c sep) eqn:E.
    + apply N.eqb_eq in E. subst c. exfalso. apply H. now left.
    + rewrite IH; [reflexivity|]. intros Hin. apply H. now right.
Qed.

Lemma split_blank (s : jsstring) (sep : char) :
  forallb is_white_space s = true ->
  Forall (fun raw => forallb is_white_space raw = true) (split s sep).
Proof.
  induction s as [|c s IH]; intros H.
  - repeat constructor.
  - cbn [forallb] in H. apply andb_true_iff in H as [Hc Hs].
    specialize (IH Hs). cbn [split].
    destruct (N.eqb c sep); [now constructor|].
    destruct (split s sep) as [|piece pieces].
    + repeat constructor. cbn [forallb]. now rewrite Hc.
    + inversion IH; subst. constructor; [|assumption].
      cbn [forallb]. now rewrite Hc.
Qed.

End FramingFacts.

Import FramingFacts.

Section DecoderFacts.

Variable Number_toString : jsstring -> jsstring.

Local Abbreviation decode := (decode Number_toString).
Local Abbreviation inner_loop := (inner_loop Number_toString).
Local Abbreviation read_chunk := (read_chunk Number_toString).
Local Abbreviation read_loop := (read_loop Number_toString).
Local Abbreviation flush_raw := (flush_raw Number_toString).
Local Abbreviation final_flush := (final_flush Number_toString).
Local Abbreviation decode_stream := (decode_stream Number_toString).

(** *** One turn of the inner loop *)

(** Without a newline in the buffer the inner loop does nothing. *)
Lemma inner_loop_no_newline (fuel : nat) (st : state) :
  ~ In LF (textBuffer st) -> inner_loop fuel st = st.
Proof.
  intros H. destruct fuel; [reflexivity|]. cbn [Stream.inner_loop].
  now rewrite indexOf_newline_absent.
Qed.

(** With one, it takes the text before the first newline as the record
    and leaves what comes after it in the buffer. *)
Lemma inner_loop_step (fuel : nat) (st : state) (raw rest : jsstring) :
  textBuffer st = raw ++ LF :: rest ->
  ~ In LF raw ->
  inner_loop (S fuel) st
  = let line := strip_cr raw in
    let st1 := note_record line (set_textBuffer rest st) in
    match decode line with
    | Ignorable => inner_loop fuel st1
    | Terminator => set_streamDone true st1
    | DataPayload chunk => inner_loop fuel (upsertAssistant chunk st1)
    | Malformed => rebuffer line st1
    end.
Proof.
  intros Hb Hraw. cbn [Stream.inner_loop].
  rewrite Hb, indexOf_newline_first by assumption.
  pose proof (len_nonneg raw).
  destruct (len raw =? -1)%Z eqn:E; [apply Z.eqb_eq in E; lia|].
  now rewrite slice_prefix, slice_from_after_newline.
Qed.

(** The fuel [read_chunk] starts the inner loop with is never used up:
    any two amounts above the buffer's length give the same run. *)
Lemma inner_loop_fuel (n : nat) :
  forall (m : nat) (st : state),
    length (textBuffer st) < n -> length (textBuffer st) < m ->
    inner_loop n st = inner_loop m st.
Proof.
  induction n as [|n IH]; intros m st Hn Hm; [lia|].
  destruct m as [|m]; [lia|].
  destruct (newline_cases (textBuffer st)) as [H|(raw & rest & Hb & Hraw)].
  - now rewrite !inner_loop_no_newline.
  - rewrite !(inner_loop_step _ _ _ _ Hb Hraw). cbv zeta.
    rewrite Hb, length_app in Hn, Hm. simpl length in Hn, Hm.
    destruct (decode (strip_cr raw)); try reflexivity;
      apply IH; simpl; lia.
Qed.

(** *** What [decode] makes of a data record *)

Lemma data_line_not_skipped (line : jsstring) :
  startsWith line DATA_PREFIX = true ->
  startsWith line (lit ":") || is_empty (trim line) = false.
Proof.
  intros H. apply startsWith_inv in H. rewrite H.
  apply orb_false_iff. split; [reflexivity|].
  destruct (is_empty _) eqn:E; [|reflexivity].
  apply is_empty_nil in E. exfalso. revert E.
  apply trim_nonblank with (c := 100%N); [now left|reflexivity].
Qed.

Lemma data_line_nonempty (line : jsstring) :
  startsWith line DATA_PREFIX = true -> is_empty line = false.
Proof. destruct line; [discriminate|reflexivity]. Qed.

Lemma decode_data (line : jsstring) :
  startsWith line DATA_PREFIX = true ->
  decode line
  = let jsonStr := trim (slice_from line 6) in
    if eqb jsonStr DONE then Terminator
    else
      match JSON_parse jsonStr with
      | None => Malformed
      | Some parsed =>
          match delta_content parsed with
          | Throw => Malformed
          | Normal None => Ignorable
          | Normal (Some content) =>
              if ToBoolean Number_toString (Some content) then
                match ToString Number_toString content with
                | Some chunk => DataPayload chunk
                | None => Malformed
                end
              else Ignorable
          end
      end.
Proof.
  intros H. unfold Stream.decode.
  rewrite (data_line_not_skipped _ H).
  change (lit "data: ") with DATA_PREFIX. now rewrite H.
Qed.

Lemma decode_malformed (line : jsstring) :
  startsWith line DATA_PREFIX = true ->
  trim (slice_from line 6) <> DONE ->
  JSON_parse (trim (slice_from line 6)) = None ->
  decode line = Malformed.
Proof.
  intros H Hd Hp. rewrite (decode_data _ H). cbv zeta.
  apply eqb_neq in Hd. now rewrite Hd, Hp.
Qed.

Lemma DONE_is_not_JSON : JSON_parse DONE = None.
Proof. vm_compute. reflexivity. Qed.

(** *** C5: a malformed record goes back into the buffer *)

Lemma waiting_read_chunk (payload tail value : jsstring) (st0 st : state) :
  payload <> DONE ->
  JSON_parse payload = None ->
  waiting payload tail st0 st ->
  waiting payload (tail ++ value) st0 (read_chunk value st).
Proof.
  intros Hd Hp (Hdone & Hso & Hpub & Hmsg & line & Hb & Hline & Hpre & Hpay).
  destruct (strip_cr_payload _ Hpre) as [Hpre' Hpay'].
  unfold Stream.read_chunk.
  rewrite inner_loop_step with (raw := line) (rest := tail ++ value);
    [|cbn [textBuffer set_textBuffer]; rewrite Hb, <- app_assoc; reflexivity
     |exact Hline].
  cbv zeta. rewrite decode_malformed;
    [|exact Hpre'|rewrite Hpay', Hpay; exact Hd
     |rewrite Hpay', Hpay; exact Hp].
  repeat split; try assumption.
  exists (strip_cr line). repeat split.
  - exact (fun H => Hline (strip_cr_incl _ _ H)).
  - exact Hpre'.
  - now rewrite Hpay'.
Qed.

Lemma waiting_read_loop (payload : jsstring) (chunks : list jsstring) :
  forall (tail : jsstring) (st0 st : state),
    payload <> DONE ->
    JSON_parse payload = None ->
    waiting payload tail st0 st ->
    waiting payload (tail ++ concat chunks) st0 (read_loop chunks st).
Proof.
  induction chunks as [|value chunks IH]; intros tail st0 st Hd Hp H.
  - simpl. rewrite app_nil_r. now destruct (streamDone st).
  - cbn [Stream.read_loop concat].
    replace (streamDone st) with false by (symmetry; apply H).
    rewrite app_assoc. apply IH; try assumption.
    now apply waiting_read_chunk.
Qed.

(** C5. Malformed-record recovery: when the payload of a [data: ] record
    is not the sentinel and fails to parse, the read loop puts the record
    and a newline back in front of the buffer and leaves the rest of the
    batch unread; whatever chunks follow, a record with that payload
    still heads the buffer and nothing is appended or published; only
    the final flush passes over it. *)
Theorem malformed_record_is_kept
  (st : state) (raw rest : jsstring) (fuel : nat) :
  textBuffer st = raw ++ LF :: rest ->
  ~ In LF raw ->
  streamDone st = false ->
  let line := strip_cr raw in
  let payload := trim (slice_from line 6) in
  startsWith line (lit "data: ") = true ->
  payload <> DONE ->
  JSON_parse payload = None ->
  let st' := inner_loop (S fuel) st in
  (textBuffer st' = line ++ LF :: rest
   /\ records st' = records st ++ [line]
   /\ assistantSoFar st' = assistantSoFar st
   /\ published st' = published st
   /\ messages st' = messages st)
  /\ (forall chunks, exists line',
        textBuffer (read_loop chunks st')
        = line' ++ LF :: rest ++ concat chunks
        /\ startsWith line' (lit "data: ") = true
        /\ trim (slice_from line' 6) = payload
        /\ assistantSoFar (read_loop chunks st') = assistantSoFar st
        /\ published (read_loop chunks st') = published st)
  /\ (forall st2, flush_raw st2 line = note_flushed (strip_cr line) st2).
Proof.
  intros Hb Hraw Hdone line payload Hpre Hd Hp st'.
  assert (Hst' : st' = rebuffer line
                         (note_record line (set_textBuffer rest st))).
  { unfold st'. rewrite (inner_loop_step _ _ _ _ Hb Hraw). cbv zeta.
    fold line. now rewrite decode_malformed. }
  assert (Hline : ~ In LF line)
    by exact (fun H => Hraw (strip_cr_incl _ _ H)).
  split; [rewrite Hst'; now repeat split|]. split.
  - intros chunks.
    destruct (waiting_read_loop payload chunks rest st st' Hd Hp)
      as (_ & Hso & Hpub & _ & line' & Hb' & _ & Hpre' & Hpay').
    { rewrite Hst'. repeat split; try assumption.
      exists line. now repeat split. }
    exists line'. now repeat split.
  - intros st2. unfold Stream.flush_raw.
    rewrite (data_line_nonempty _ Hpre).
    destruct (strip_cr_payload _ Hpre) as [Hpre' Hpay'].
    rewrite decode_malformed; [reflexivity|exact Hpre'| |];
      now rewrite Hpay'.
Qed.

(** *** C4: what becomes of a content string *)

(** C4, as the code has it. A record whose payload parses to an object
    with a string at [choices[0].delta.content] is a DataPayload carrying
    that string when the string is not empty: the read loop and the flush
    hand it to [upsertAssistant], which appends it to the running text and
    publishes a view. An empty string fails the test [if (content)] and
    the record is skipped. *)
Theorem content_string_is_appended_unless_empty
  (line : jsstring) (members choice delta : list (jsstring * json))
  (more : list json) (s : jsstring) :
  startsWith line (lit "data: ") = true ->
  JSON_parse (trim (slice_from line 6)) = Some (JObject members) ->
  lookup (lit "choices") members = Some (JArray (JObject choice :: more)) ->
  lookup (lit "delta") choice = Some (JObject delta) ->
  lookup (lit "content") delta = Some (JString s) ->
  decode line = (if is_empty s then Ignorable else DataPayload s)
  /\ (s <> [] ->
      (forall fuel st raw rest,
          textBuffer st = raw ++ LF :: rest -> ~ In LF raw ->
          strip_cr raw = line ->
          inner_loop (S fuel) st
          = inner_loop fuel
              (upsertAssistant s
                 (note_record line (set_textBuffer rest st))))
      /\ (forall st raw,
             raw <> [] -> strip_cr raw = line ->
             flush_raw st raw = upsertAssistant s (note_flushed line st))
      /\ (forall st,
             assistantSoFar (upsertAssistant s st) = assistantSoFar st ++ s
             /\ published (upsertAssistant s st)
                = published st ++ [extractQuickReplies (assistantSoFar st ++ s)])).
Proof.
  intros Hpre Hparse Hchoices Hdelta Hcontent.
  assert (Hdec : decode line = if is_empty s then Ignorable else DataPayload s).
  { rewrite (decode_data _ Hpre). cbv zeta.
    destruct (eqb (trim (slice_from line 6)) DONE) eqn:E.
    { apply eqb_eq in E. rewrite E, DONE_is_not_JSON in Hparse.
      discriminate. }
    rewrite Hparse. unfold delta_content, GetNamed, GetIndex0.
    rewrite Hchoices, Hdelta, Hcontent. cbn [ToBoolean ToString].
    now destruct (is_empty s). }
  split; [exact Hdec|]. intros Hs.
  assert (Hdec' : decode line = DataPayload s).
  { rewrite Hdec. destruct s; [congruence|reflexivity]. }
  repeat split.
  - intros fuel st raw rest Hb Hraw Hline.
    rewrite (inner_loop_step _ _ _ _ Hb Hraw). cbv zeta.
    now rewrite Hline, Hdec'.
  - intros st raw Hne Hline. unfold Stream.flush_raw.
    destruct raw; [congruence|]. cbn [is_empty]. cbv iota.
    now rewrite Hline, Hdec'.
Qed.

(** A record decodes the same with and without its carriage return. *)
Lemma decode_strip_cr (line : jsstring) :
  decode (strip_cr line) = decode line.
Proof.
  destruct (strip_cr_cases line) as [[-> _]|E]; [reflexivity|].
  set (x := strip_cr line) in *. rewrite E. unfold Stream.decode.
  rewrite !startsWith_snoc
    by (intros F; cbv in F; intuition discriminate).
  rewrite trim_snoc_ws by reflexivity.
  destruct (startsWith x (lit ":") || is_empty (trim x)); [reflexivity|].
  destruct (startsWith x (lit "data: ")) eqn:Hp; [|reflexivity].
  cbn [negb]. cbv iota zeta.
  assert (Hp' : startsWith (x ++ [CR]) DATA_PREFIX = true).
  { rewrite startsWith_snoc; [exact Hp|].
    intros F; cbv in F; intuition discriminate. }
  destruct (strip_cr_payload _ Hp') as [_ Hpay].
  rewrite strip_cr_snoc in Hpay. now rewrite Hpay.
Qed.

Lemma decode_empty : decode [] = Ignorable.
Proof. reflexivity. Qed.

(** *** C9: the records against the feed *)

(** The traces only grow, and [upsertAssistant] leaves them alone. *)
Lemma inner_loop_records (fuel : nat) :
  forall st, exists new, records (inner_loop fuel st) = records st ++ new.
Proof.
  induction fuel as [|fuel IH]; intros st.
  - exists []. simpl. now rewrite app_nil_r.
  - cbn [Stream.inner_loop].
    destruct (indexOf (textBuffer st) [LF] =? -1)%Z.
    { exists []. now rewrite app_nil_r. }
    set (line := strip_cr _). set (st1 := note_record line _).
    assert (H1 : records st1 = records st ++ [line]) by reflexivity.
    destruct (decode line) as [| |chunk|].
    + destruct (IH st1) as [new ->]. rewrite H1, <- app_assoc. eauto.
    + exists [line]. exact H1.
    + destruct (IH (upsertAssistant chunk st1)) as [new ->].
      change (records (upsertAssistant chunk st1)) with (records st1).
      rewrite H1, <- app_assoc. eauto.
    + exists [line]. exact H1.
Qed.

Lemma read_loop_records (chunks : list jsstring) :
  forall st, exists new, records (read_loop chunks st) = records st ++ new.
Proof.
  induction chunks as [|value chunks IH]; intros st;
    cbn [Stream.read_loop]; destruct (streamDone st);
    try (exists []; now rewrite app_nil_r).
  destruct (IH (read_chunk value st)) as [new ->].
  destruct (inner_loop_records
              (S (length (textBuffer st ++ value)))
              (set_textBuffer (textBuffer st ++ value) st)) as [new' H].
  unfold Stream.read_chunk. cbn [textBuffer set_textBuffer].
  rewrite H. cbn [records set_textBuffer]. rewrite <- app_assoc. eauto.
Qed.

Lemma flush_raw_records (st : state) (raw : jsstring) :
  records (flush_raw st raw) = records st.
Proof.
  unfold Stream.flush_raw. destruct (is_empty raw); [reflexivity|].
  now destruct (decode (strip_cr raw)).
Qed.

Lemma final_flush_records (st : state) :
  records (final_flush st) = records st.
Proof.
  unfold Stream.final_flush.
  destruct (is_empty (trim (textBuffer st))); [reflexivity|].
  generalize (split (textBuffer st) LF). intros raws. revert st.
  induction raws as [|raw raws IH]; intros st; [reflexivity|].
  simpl. now rewrite IH, flush_raw_records.
Qed.

(** A run of the inner loop in which every record goes through: the
    records it takes, each with its newline, and the buffer it leaves
    make up the buffer it started from. *)
Lemma inner_loop_framing (fuel : nat) :
  forall st,
    length (textBuffer st) < fuel ->
    (forall a b, textBuffer st <> a ++ CR :: LF :: b) ->
    Forall (fun r => goes_through (decode r) = true)
           (records (inner_loop fuel st)) ->
    exists new,
      records (inner_loop fuel st) = records st ++ new
      /\ restore new ++ textBuffer (inner_loop fuel st) = textBuffer st
      /\ ~ In LF (textBuffer (inner_loop fuel st))
      /\ streamDone (inner_loop fuel st) = streamDone st
      /\ flushed (inner_loop fuel st) = flushed st.
Proof.
  induction fuel as [|fuel IH]; intros st Hfuel Hcr Hok; [lia|].
  destruct (newline_cases (textBuffer st)) as [H|(raw & rest & Hb & Hraw)].
  { rewrite inner_loop_no_newline by assumption.
    exists []. rewrite app_nil_r. now repeat split. }
  assert (Hline : strip_cr raw = raw).
  { destruct (strip_cr_cases raw) as [[E _]|E]; [exact E|].
    exfalso. apply (Hcr (strip_cr raw) rest).
    rewrite Hb, E at 1. now rewrite <- app_assoc. }
  rewrite (inner_loop_step _ _ _ _ Hb Hraw) in *. cbv zeta in *.
  rewrite Hline in *.
  set (st1 := note_record raw (set_textBuffer rest st)) in *.
  assert (Hrest : forall a b, rest <> a ++ CR :: LF :: b).
  { intros a b E. apply (Hcr (raw ++ LF :: a) b).
    rewrite Hb, E, <- app_assoc. reflexivity. }
  assert (Hlen : length rest < fuel).
  { rewrite Hb, length_app in Hfuel. simpl in Hfuel. lia. }
  assert (Hstop : forall st2,
    records st2 = records st ++ [raw] ->
    Forall (fun r => goes_through (decode r) = true) (records st2) ->
    goes_through (decode raw) = true).
  { intros st2 E F. rewrite E in F. apply Forall_app in F as [_ F].
    now inversion F. }
  destruct (decode raw) as [| |chunk|] eqn:Hd.
  - destruct (IH st1 Hlen Hrest Hok)
      as (new & Hr & Hbuf & Hnl & Hdone & Hfl).
    exists (raw :: new). rewrite Hr. repeat split; try assumption.
    + cbn [records st1 note_record set_textBuffer].
      now rewrite <- app_assoc.
    + change rest with (textBuffer st1) in Hb.
      rewrite Hb, <- Hbuf. unfold restore. simpl.
      now rewrite <- !app_assoc.
  - discriminate (Hstop (set_streamDone true st1) eq_refl Hok).
  - destruct (IH (upsertAssistant chunk st1) Hlen Hrest Hok)
      as (new & Hr & Hbuf & Hnl & Hdone & Hfl).
    exists (raw :: new). rewrite Hr. repeat split; try assumption.
    + cbn [records st1 note_record set_textBuffer upsertAssistant
           setMessages set_assistantSoFar].
      now rewrite <- app_assoc.
    + change rest with (textBuffer (upsertAssistant chunk st1)) in Hb.
      rewrite Hb, <- Hbuf. unfold restore. simpl.
      now rewrite <- !app_assoc.
  - discriminate (Hstop (rebuffer raw st1) eq_refl Hok).
Qed.

Lemma read_loop_framing (chunks : list jsstring) :
  forall st,
    streamDone st = false ->
    ~ In LF (textBuffer st) ->
    (forall a b, textBuffer st ++ concat chunks <> a ++ CR :: LF :: b) ->
    Forall (fun r => goes_through (decode r) = true)
           (records (read_loop chunks st)) ->
    exists new,
      records (read_loop chunks st) = records st ++ new
      /\ restore new ++ textBuffer (read_loop chunks st)
         = textBuffer st ++ concat chunks
      /\ ~ In LF (textBuffer (read_loop chunks st))
      /\ flushed (read_loop chunks st) = flushed st.
Proof.
  induction chunks as [|value chunks IH]; intros st Hdone Hnl Hcr Hok.
  - exists []. cbn [Stream.read_loop]. rewrite Hdone. simpl.
    rewrite !app_nil_r. now repeat split.
  - cbn [Stream.read_loop concat] in *. rewrite Hdone in *.
    set (st0 := set_textBuffer (textBuffer st ++ value) st).
    assert (E1 : read_chunk value st
                 = inner_loop (S (length (textBuffer st0))) st0)
      by reflexivity.
    destruct (read_loop_records chunks (read_chunk value st))
      as [later Hlater].
    destruct (inner_loop_framing (S (length (textBuffer st0))) st0)
      as (new & Hr & Hbuf & Hnl1 & Hdone1 & Hfl1).
    { lia. }
    { intros a b E. apply (Hcr a (b ++ concat chunks)).
      cbn [textBuffer st0 set_textBuffer] in E.
      rewrite app_assoc, E, <- app_assoc. reflexivity. }
    { rewrite <- E1. rewrite Hlater in Hok.
      now apply Forall_app in Hok as [Hok _]. }
    rewrite <- E1 in Hr, Hbuf, Hnl1, Hdone1, Hfl1.
    cbn [textBuffer st0 set_textBuffer] in Hbuf.
    assert (Hd1 : streamDone (read_chunk value st) = false)
      by (rewrite Hdone1; exact Hdone).
    assert (Hcr1 : forall a b,
      textBuffer (read_chunk value st) ++ concat chunks
      <> a ++ CR :: LF :: b).
    { intros a b E. apply (Hcr (restore new ++ a) b).
      rewrite app_assoc, <- Hbuf, <- !app_assoc, E. reflexivity. }
    destruct (IH (read_chunk value st) Hd1 Hnl1 Hcr1 Hok)
      as (new' & Hr' & Hbuf' & Hnl' & Hfl').
    exists (new ++ new'). repeat split; try assumption.
    + rewrite Hr', Hr. cbn [records st0 set_textBuffer].
      now rewrite app_assoc.
    + rewrite restore_app, <- app_assoc, Hbuf', app_assoc, Hbuf.
      now rewrite <- app_assoc.
    + now rewrite Hfl', Hfl1.
Qed.

(** The flush of a buffer that holds one unterminated record. *)
Lemma final_flush_tail (st : state) :
  ~ In LF (textBuffer st) ->
  textBuffer st = [] \/ trim (textBuffer st) <> [] ->
  endsWith (textBuffer st) [CR] = false ->
  concat (flushed (final_flush st)) = concat (flushed st) ++ textBuffer st.
Proof.
  intros Hnl Htail Hcr. unfold Stream.final_flush.
  destruct Htail as [E|Hne].
  - rewrite E. simpl. now rewrite app_nil_r.
  - destruct (is_empty (trim (textBuffer st))) eqn:E.
    { apply is_empty_nil in E. congruence. }
    rewrite split_no_sep by assumption. cbn [fold_left].
    unfold Stream.flush_raw.
    destruct (textBuffer st) as [|c buf] eqn:Eb; [now destruct Hne|].
    cbn [is_empty]. cbv iota. unfold strip_cr. rewrite Hcr.
    assert (F : forall st2, flushed st2 = flushed st ++ [c :: buf] ->
                concat (flushed st2) = concat (flushed st) ++ c :: buf).
    { intros st2 ->. rewrite concat_app. simpl. now rewrite app_nil_r. }
    destruct (decode (c :: buf)); now apply F.
Qed.

(** The same over a whole run, stated on the records it yielded. *)
Lemma framing_of_yielded_records
  (aid : jsstring) (time : Z) (prev : list ChatMessage.t)
  (chunks : list jsstring) :
  let feed := concat chunks in
  let st := decode_stream chunks (start_stream aid time prev) in
  Forall (fun r => goes_through (decode r) = true) (records st) ->
  indexOf feed [CR; LF] = (-1)%Z ->
  endsWith feed [CR] = false ->
  unterminated_tail feed = [] \/ trim (unterminated_tail feed) <> [] ->
  restore (records st) ++ concat (flushed st) = feed.
Proof.
  intros feed st Hok Hcrlf Hcr Htail. unfold st, Stream.decode_stream in *.
  set (st0 := start_stream aid time prev) in *.
  rewrite final_flush_records in *.
  destruct (read_loop_framing chunks st0) as (new & Hr & Hbuf & Hnl & Hfl);
    try assumption; try reflexivity.
  { intros []. }
  { intros a b E. apply (indexOf_absent _ _ Hcrlf a b). exact E. }
  cbn [textBuffer st0 start_stream app] in Hbuf. fold feed in Hbuf.
  assert (Ht : unterminated_tail feed = textBuffer (read_loop chunks st0)).
  { rewrite <- Hbuf. apply unterminated_tail_app; [exact Hnl|].
    apply restore_ends. }
  rewrite Ht in Htail.
  rewrite final_flush_tail; try assumption.
  - rewrite Hfl, Hr. cbn [records flushed st0 start_stream concat app].
    exact Hbuf.
  - destruct (endsWith (textBuffer (read_loop chunks st0)) [CR]) eqn:E;
      [|reflexivity].
    destruct (endsWith_cr_inv _ E) as [l El].
    rewrite <- Hbuf, El, app_assoc, endsWith_last in Hcr. discriminate.
Qed.

(** When every line of the feed goes through, so does every record
    the read loop yields. *)
Lemma inner_loop_yields_lines (fuel : nat) :
  forall (st : state) (more : jsstring),
    Forall (fun raw => goes_through (decode raw) = true)
           (split (textBuffer st ++ more) LF) ->
    Forall (fun r => goes_through (decode r) = true) (records st) ->
    Forall (fun r => goes_through (decode r) = true)
           (records (inner_loop fuel st))
    /\ Forall (fun raw => goes_through (decode raw) = true)
              (split (textBuffer (inner_loop fuel st) ++ more) LF).
Proof.
  induction fuel as [|fuel IH]; intros st more Hfeed Hrec; [now split|].
  destruct (newline_cases (textBuffer st)) as [H|(raw & rest & Hb & Hraw)].
  { rewrite inner_loop_no_newline by assumption. now split. }
  rewrite (inner_loop_step _ _ _ _ Hb Hraw). cbv zeta.
  rewrite Hb, <- app_assoc in Hfeed. cbn [app] in Hfeed.
  rewrite split_at_first in Hfeed by assumption.
  inversion Hfeed as [|? ? Hline Hrest]; subst.
  rewrite <- decode_strip_cr in Hline.
  set (line := strip_cr raw) in *.
  set (st1 := note_record line (set_textBuffer rest st)).
  assert (Hrec1 : Forall (fun r => goes_through (decode r) = true)
                         (records st1)).
  { cbn [records st1 note_record set_textBuffer].
    apply Forall_app. split; [exact Hrec|]. now repeat constructor. }
  destruct (decode line) as [| |chunk|]; try discriminate Hline.
  - now apply IH.
  - now apply IH.
Qed.

Lemma read_loop_yields_lines (chunks : list jsstring) :
  forall st,
    Forall (fun raw => goes_through (decode raw) = true)
           (split (textBuffer st ++ concat chunks) LF) ->
    Forall (fun r => goes_through (decode r) = true) (records st) ->
    Forall (fun r => goes_through (decode r) = true)
           (records (read_loop chunks st)).
Proof.
  induction chunks as [|value chunks IH]; intros st Hfeed Hrec;
    cbn [Stream.read_loop]; destruct (streamDone st); try assumption.
  cbn [concat] in Hfeed. rewrite app_assoc in Hfeed.
  destruct (inner_loop_yields_lines
              (S (length (textBuffer st ++ value)))
              (set_textBuffer (textBuffer st ++ value) st)
              (concat chunks) Hfeed Hrec) as [Hrec1 Hfeed1].
  now apply IH.
Qed.

(** C9, as the code has it. For a feed none of whose lines is Malformed
    or the Terminator, in which no carriage return stands right before a
    newline or at the end, and whose text after the last newline is
    empty or not blank: the records of the read loop, a newline after
    each, followed by the records of the flush spell the feed out
    exactly, however the feed was cut into chunks. (A carriage return
    before a newline is stripped and not restored, and a blank tail is
    never flushed.) *)
Theorem framing_reproduces_the_feed
  (aid : jsstring) (time : Z) (prev : list ChatMessage.t)
  (chunks : list jsstring) :
  let feed := concat chunks in
  let st := decode_stream chunks (start_stream aid time prev) in
  Forall (fun raw => goes_through (decode raw) = true) (split feed LF) ->
  indexOf feed [CR; LF] = (-1)%Z ->
  endsWith feed [CR] = false ->
  unterminated_tail feed = [] \/ trim (unterminated_tail feed) <> [] ->
  restore (records st) ++ concat (flushed st) = feed.
Proof.
  intros feed st Hlines. apply framing_of_yielded_records.
  unfold Stream.decode_stream. rewrite final_flush_records.
  apply read_loop_yields_lines; [exact Hlines|constructor].
Qed.

(** *** Chunk boundaries, when the sentinel is not met *)

Lemma same_reply_refl (a : state) : same_reply a a.
Proof. now repeat split. Qed.

Lemma same_reply_trans (a b c : state) :
  same_reply a b -> same_reply b c -> same_reply a c.
Proof.
  intros (H1 & H2 & H3 & H4 & H5) (K1 & K2 & K3 & K4 & K5).
  repeat split; congruence.
Qed.

Lemma same_reply_sym (a b : state) : same_reply a b -> same_reply b a.
Proof. intros (H1 & H2 & H3 & H4 & H5). now repeat split. Qed.

Lemma upsertAssistant_same_reply (chunk : jsstring) (a b : state) :
  same_reply a b ->
  same_reply (upsertAssistant chunk a) (upsertAssistant chunk b).
Proof.
  intros (H1 & H2 & H3 & H4 & H5).
  unfold upsertAssistant, setMessages, same_reply.
  cbn [assistantId assistantSoFar messages clock published
       set_assistantSoFar].
  now rewrite H1, H2, H3, H4, H5.
Qed.

Lemma flush_raw_same_reply (raw : jsstring) (a b : state) :
  same_reply a b -> same_reply (flush_raw a raw) (flush_raw b raw).
Proof.
  intros H. unfold Stream.flush_raw.
  destruct (is_empty raw); [exact H|].
  destruct (decode (strip_cr raw)); try exact H.
  now apply upsertAssistant_same_reply.
Qed.

Lemma flush_all_same_reply (text : jsstring) (a b : state) :
  same_reply a b ->
  same_reply (flush_all Number_toString text a)
             (flush_all Number_toString text b).
Proof.
  unfold flush_all. generalize (split text LF). intros raws.
  revert a b. induction raws as [|raw raws IH]; intros a b H; [exact H|].
  simpl. apply IH. now apply flush_raw_same_reply.
Qed.

(** The flush of a record that the read loop found Malformed or
    Ignorable changes nothing of the reply. *)
Lemma flush_raw_skips (st : state) (raw : jsstring) :
  decode (strip_cr raw) = Malformed \/ decode (strip_cr raw) = Ignorable ->
  same_reply (flush_raw st raw) st.
Proof.
  intros H. unfold Stream.flush_raw.
  destruct (is_empty raw); [apply same_reply_refl|].
  destruct H as [-> | ->]; now repeat split.
Qed.

Lemma flush_raw_payload (st : state) (raw chunk : jsstring) :
  decode (strip_cr raw) = DataPayload chunk ->
  same_reply (flush_raw st raw) (upsertAssistant chunk st).
Proof.
  intros H. unfold Stream.flush_raw.
  destruct raw as [|c raw].
  { change (strip_cr []) with (@nil char) in H.
    rewrite decode_empty in H. discriminate. }
  cbn [is_empty]. cbv iota. rewrite H.
  apply upsertAssistant_same_reply. now repeat split.
Qed.

Lemma flush_all_cons (raw rest : jsstring) (st : state) :
  ~ In LF raw ->
  flush_all Number_toString (raw ++ LF :: rest) st
  = flush_all Number_toString rest (flush_raw st raw).
Proof.
  intros H. unfold flush_all. now rewrite split_at_first.
Qed.

(** Flushing what the inner loop leaves, with whatever text [more] comes
    after it, shows the same reply as flushing what it started from:
    the inner loop only does early what the flush would do. *)
Lemma inner_loop_flush (fuel : nat) :
  forall (st : state) (more : jsstring),
    length (textBuffer st) < fuel ->
    streamDone (inner_loop fuel st) = false ->
    same_reply
      (flush_all Number_toString
         (textBuffer (inner_loop fuel st) ++ more) (inner_loop fuel st))
      (flush_all Number_toString (textBuffer st ++ more) st).
Proof.
  induction fuel as [|fuel IH]; intros st more Hfuel Hdone; [lia|].
  destruct (newline_cases (textBuffer st)) as [H|(raw & rest & Hb & Hraw)].
  { rewrite inner_loop_no_newline by assumption. apply same_reply_refl. }
  rewrite (inner_loop_step _ _ _ _ Hb Hraw) in *. cbv zeta in *.
  set (line := strip_cr raw) in *.
  set (st1 := note_record line (set_textBuffer rest st)) in *.
  assert (Hlen : length (textBuffer st1) < fuel).
  { rewrite Hb, length_app in Hfuel. simpl in *. lia. }
  assert (H1 : same_reply st1 st) by now repeat split.
  rewrite Hb, <- app_assoc. cbn [app]. rewrite flush_all_cons by assumption.
  pose proof (decode_strip_cr raw) as Hsame. fold line in Hsame.
  destruct (decode line) as [| |chunk|] eqn:Hd.
  - eapply same_reply_trans; [apply (IH st1 more Hlen Hdone)|].
    apply flush_all_same_reply.
    eapply same_reply_trans; [exact H1|].
    apply same_reply_sym, flush_raw_skips. now right.
  - discriminate Hdone.
  - eapply same_reply_trans;
      [apply (IH (upsertAssistant chunk st1) more Hlen Hdone)|].
    apply flush_all_same_reply.
    eapply same_reply_trans;
      [apply upsertAssistant_same_reply; exact H1|].
    apply same_reply_sym, flush_raw_payload. exact Hd.
  - cbn [textBuffer rebuffer set_textBuffer st1 note_record].
    rewrite <- app_assoc. cbn [app].
    rewrite flush_all_cons
      by exact (fun H => Hraw (strip_cr_incl _ _ H)).
    apply flush_all_same_reply.
    eapply same_reply_trans;
      [apply flush_raw_skips; left; now rewrite decode_strip_cr|].
    eapply same_reply_trans; [exact H1|].
    apply same_reply_sym, flush_raw_skips. now left.
Qed.

Lemma read_loop_stopped (chunks : list jsstring) (st : state) :
  streamDone st = true -> read_loop chunks st = st.
Proof. intros H. destruct chunks; cbn [Stream.read_loop]; now rewrite H. Qed.

Lemma read_loop_flush (chunks : list jsstring) :
  forall (st : state) (more : jsstring),
    streamDone (read_loop chunks st) = false ->
    same_reply
      (flush_all Number_toString
         (textBuffer (read_loop chunks st) ++ more) (read_loop chunks st))
      (flush_all Number_toString
         (textBuffer st ++ concat chunks ++ more) st).
Proof.
  induction chunks as [|value chunks IH]; intros st more Hdone.
  - destruct (streamDone st) eqn:E.
    + rewrite read_loop_stopped in Hdone by assumption. congruence.
    + cbn [Stream.read_loop concat app]. rewrite E. apply same_reply_refl.
  - destruct (streamDone st) eqn:E.
    { rewrite read_loop_stopped in Hdone by assumption. congruence. }
    cbn [Stream.read_loop concat] in *. rewrite E in *.
    destruct (streamDone (read_chunk value st)) eqn:E1.
    { rewrite read_loop_stopped in Hdone by assumption. congruence. }
    eapply same_reply_trans; [apply (IH _ more Hdone)|].
    set (st0 := set_textBuffer (textBuffer st ++ value) st).
    eapply same_reply_trans.
    + apply (inner_loop_flush (S (length (textBuffer st0))) st0
               (concat chunks ++ more)); [lia|exact E1].
    + cbn [textBuffer st0 set_textBuffer]. rewrite <- !app_assoc.
      apply flush_all_same_reply. now repeat split.
Qed.

(** The guard of line 208 only saves work: a blank buffer holds
    nothing but blank records. *)
Lemma flush_all_blank (raws : list jsstring) :
  forall st,
    Forall (fun raw => forallb is_white_space raw = true) raws ->
    same_reply (fold_left flush_raw raws st) st.
Proof.
  induction raws as [|raw raws IH]; intros st H; [apply same_reply_refl|].
  inversion H as [|? ? Hraw Hraws]; subst. simpl.
  eapply same_reply_trans; [apply IH; exact Hraws|].
  apply flush_raw_skips. right. rewrite decode_strip_cr.
  unfold Stream.decode. apply trim_nil in Hraw. rewrite Hraw.
  cbn [is_empty]. now rewrite orb_true_r.
Qed.

Lemma final_flush_is_flush_all (st : state) :
  same_reply (final_flush st) (flush_all Number_toString (textBuffer st) st).
Proof.
  unfold Stream.final_flush, flush_all.
  destruct (is_empty (trim (textBuffer st))) eqn:E;
    [|apply same_reply_refl].
  apply same_reply_sym, flush_all_blank.
  apply is_empty_nil, trim_nil in E. now apply split_blank.
Qed.

(** Whenever the read loop ends without having met the sentinel, the
    reply is what one pass of the flush over the whole feed gives. *)
Lemma decode_stream_is_flush_all (chunks : list jsstring) (st : state) :
  textBuffer st = [] ->
  streamDone (read_loop chunks st) = false ->
  same_reply (decode_stream chunks st)
             (flush_all Number_toString (concat chunks) st).
Proof.
  intros Hb Hdone. unfold Stream.decode_stream.
  eapply same_reply_trans; [apply final_flush_is_flush_all|].
  pose proof (read_loop_flush chunks st [] Hdone) as H.
  now rewrite !app_nil_r, Hb in H.
Qed.

(** X1. Chunk-boundary invariance off the sentinel: two deliveries of one
    feed, in neither of which the read loop meets the sentinel, end with
    the same running text, the same published views and the same
    messages. *)
Theorem chunk_invariance_without_sentinel
  (aid : jsstring) (time : Z) (prev : list ChatMessage.t)
  (chunks chunks' : list jsstring) :
  concat chunks = concat chunks' ->
  let st := decode_stream chunks (start_stream aid time prev) in
  let st' := decode_stream chunks' (start_stream aid time prev) in
  streamDone (read_loop chunks (start_stream aid time prev)) = false ->
  streamDone (read_loop chunks' (start_stream aid time prev)) = false ->
  assistantSoFar st = assistantSoFar st'
  /\ published st = published st'
  /\ messages st = messages st'.
Proof.
  intros Hfeed st st' Hdone Hdone'.
  assert (H : same_reply st st').
  { eapply same_reply_trans;
      [apply decode_stream_is_flush_all; [reflexivity|exact Hdone]|].
    rewrite Hfeed. apply same_reply_sym.
    apply decode_stream_is_flush_all; [reflexivity|exact Hdone']. }
  destruct H as (_ & H2 & H3 & _ & H5). now repeat split.
Qed.

End DecoderFacts.

(* ================================================================== *)
(** * The claims at concrete feeds *)
(* ================================================================== *)

(** C1. Termination stops consumption, on the code: the three records of
    the claim delivered as one chunk. The read loop stops at the
    sentinel and leaves the third record in the buffer, and the final
    flush then appends it: the running text ends as [Hiignored], where
    the claim has [Hi]. *)
Theorem flush_applies_the_record_after_the_sentinel
  (Number_toString : jsstring -> jsstring)
  (aid : jsstring) (time : Z) (prev : list ChatMessage.t) :
  let feed := HI_RECORD ++ [LF] ++ DONE_RECORD ++ [LF]
              ++ IGNORED_RECORD ++ [LF] in
  let st := decode_stream Number_toString [feed]
              (start_stream aid time prev) in
  streamDone (read_loop Number_toString [feed] (start_stream aid time prev))
  = true
  /\ textBuffer st = IGNORED_RECORD ++ [LF]
  /\ flushed st = [IGNORED_RECORD]
  /\ assistantSoFar st = lit "Hiignored".
Proof. repeat split; vm_compute; reflexivity. Qed.

(** C2. Chunk-boundary invariance, on the code: one feed, delivered
    whole and delivered cut after the sentinel's newline. Cut, the third
    record is never read and the running text is [Hi] with one view
    published; whole, the flush appends it and a second view is
    published. *)
Theorem chunking_decides_what_follows_the_sentinel
  (Number_toString : jsstring -> jsstring)
  (aid : jsstring) (time : Z) (prev : list ChatMessage.t) :
  let head := HI_RECORD ++ [LF] ++ DONE_RECORD ++ [LF] in
  let tail := IGNORED_RECORD ++ [LF] in
  let whole := decode_stream Number_toString [head ++ tail]
                 (start_stream aid time prev) in
  let cut := decode_stream Number_toString [head; tail]
               (start_stream aid time prev) in
  concat [head ++ tail] = concat [head; tail]
  /\ assistantSoFar whole = lit "Hiignored"
  /\ assistantSoFar cut = lit "Hi"
  /\ published whole
     = [ {| cleanContent := lit "Hi"; quickReplies := JArray [] |};
         {| cleanContent := lit "Hiignored"; quickReplies := JArray [] |} ]
  /\ published cut
     = [ {| cleanContent := lit "Hi"; quickReplies := JArray [] |} ].
Proof. repeat split; vm_compute; reflexivity. Qed.

(** C4 as the claim states it fails: a record whose content is the empty
    string has a string at [choices[0].delta.content], yet it is skipped;
    a feed that holds only this record publishes no view and creates no
    assistant message. *)
Lemma empty_content_is_skipped :
  let line := jsq "data: {'choices':[{'delta':{'content':''}}]}" in
  JSON_parse (trim (slice_from line 6))
  = Some (JObject [(lit "choices",
            JArray [JObject [(lit "delta",
              JObject [(lit "content", JString [])])]])])
  /\ (forall nts, decode nts line = Ignorable)
  /\ (forall nts aid time prev,
        let st := decode_stream nts [line ++ [LF]]
                    (start_stream aid time prev) in
        records st = [line] /\ published st = [] /\ messages st = prev).
Proof.
  split; [vm_compute; reflexivity|]. split.
  - intros nts. vm_compute. reflexivity.
  - intros nts aid time prev. repeat split; vm_compute; reflexivity.
Qed.

Lemma content_string_is_appended_unless_empty_witness :
  decode lexeme_as_written HI_RECORD = DataPayload (lit "Hi").
Proof.
  exact (proj1 (content_string_is_appended_unless_empty
                  lexeme_as_written HI_RECORD
                  [(lit "choices",
                    JArray [JObject [(lit "delta",
                      JObject [(lit "content", JString (lit "Hi"))])]])]
                  [(lit "delta", JObject [(lit "content", JString (lit "Hi"))])]
                  [(lit "content", JString (lit "Hi"))]
                  [] (lit "Hi")
                  ltac:(vm_compute; reflexivity)
                  ltac:(vm_compute; reflexivity)
                  ltac:(vm_compute; reflexivity)
                  ltac:(vm_compute; reflexivity)
                  ltac:(vm_compute; reflexivity))).
Defined.

Lemma malformed_record_is_kept_witness :
  let raw := jsq "data: {'choices':[{'delta':{'content':'Hi'}}" ++ [CR] in
  let rest := jsq "data: {'choices':[{'delta':{'content':'!'}}]}" ++ [LF] in
  let st := set_textBuffer (raw ++ LF :: rest)
              (start_stream (lit "7") 0%Z []) in
  textBuffer (inner_loop lexeme_as_written 1 st)
  = jsq "data: {'choices':[{'delta':{'content':'Hi'}}" ++ LF :: rest
  /\ assistantSoFar (inner_loop lexeme_as_written 1 st) = [].
Proof.
  pose (raw := jsq "data: {'choices':[{'delta':{'content':'Hi'}}" ++ [CR]).
  pose (rest := jsq "data: {'choices':[{'delta':{'content':'!'}}]}" ++ [LF]).
  pose (st := set_textBuffer (raw ++ LF :: rest)
                (start_stream (lit "7") 0%Z [])).
  destruct (proj1 (malformed_record_is_kept lexeme_as_written st raw rest 0
                     eq_refl
                     (indexOf_newline_none raw
                        ltac:(vm_compute; reflexivity))
                     eq_refl
                     ltac:(vm_compute; reflexivity)
                     ltac:(vm_compute; discriminate)
                     ltac:(vm_compute; reflexivity)))
    as (Hbuf & _ & Hso & _).
  split; [exact Hbuf|exact Hso].
Defined.

(** C9 as the claim states it fails: a comment line that ends in a
    carriage return and a newline goes through, and what the records
    spell out has lost the carriage return. *)
Lemma carriage_return_is_not_restored :
  let chunks := [lit ": keep-alive" ++ [CR; LF]] in
  (forall nts aid time prev,
      let st := decode_stream nts chunks (start_stream aid time prev) in
      Forall (fun raw => goes_through (decode nts raw) = true)
             (split (concat chunks) LF)
      /\ records st = [lit ": keep-alive"]
      /\ flushed st = []
      /\ restore (records st) ++ concat (flushed st)
         = lit ": keep-alive" ++ [LF])
  /\ eqb (lit ": keep-alive" ++ [LF]) (concat chunks) = false.
Proof.
  split; [|vm_compute; reflexivity].
  intros nts aid time prev. split.
  - apply Forall_of_forallb. vm_compute. reflexivity.
  - repeat split; vm_compute; reflexivity.
Qed.

Lemma framing_reproduces_the_feed_witness :
  let chunks := [ jsq "data: {'choices':[{'delta':{'con";
                  jsq "tent':'Hi'}}]}" ++ [LF] ++ lit ": ping" ++ [LF; LF]
                  ++ lit "data: {}" ] in
  let st := decode_stream lexeme_as_written chunks
              (start_stream (lit "7") 0%Z []) in
  records st = [HI_RECORD; lit ": ping"; []]
  /\ flushed st = [lit "data: {}"]
  /\ restore (records st) ++ concat (flushed st) = concat chunks.
Proof.
  split; [vm_compute; reflexivity|]. split; [vm_compute; reflexivity|].
  apply (framing_reproduces_the_feed lexeme_as_written (lit "7") 0%Z []
           [ jsq "data: {'choices':[{'delta':{'con";
             jsq "tent':'Hi'}}]}" ++ [LF] ++ lit ": ping" ++ [LF; LF]
             ++ lit "data: {}" ]).
  - apply Forall_of_forallb. vm_compute. reflexivity.
  - vm_compute. reflexivity.
  - vm_compute. reflexivity.
  - right. vm_compute. discriminate.
Defined.

Lemma chunk_invariance_without_sentinel_witness :
  let whole := [ HI_RECORD ++ [LF] ++ lit ": ping" ++ [CR; LF]
                 ++ jsq "data: {'choices':[{'delta':{'content':'!'}}]}" ] in
  let cut := [ jsq "data: {'choices':[{'del";
               jsq "ta':{'content':'Hi'}}]}" ++ [LF] ++ lit ": ping" ++ [CR];
               [LF] ++ jsq "data: {'choices':[{'delta':{'content':'!'}}]}" ] in
  let st := decode_stream lexeme_as_written whole
              (start_stream (lit "7") 0%Z []) in
  let st' := decode_stream lexeme_as_written cut
               (start_stream (lit "7") 0%Z []) in
  assistantSoFar st = lit "Hi!"
  /\ assistantSoFar st = assistantSoFar st'
  /\ published st = published st'
  /\ messages st = messages st'.
Proof.
  split; [vm_compute; reflexivity|].
  apply (chunk_invariance_without_sentinel lexeme_as_written
           (lit "7") 0%Z []
           [ HI_RECORD ++ [LF] ++ lit ": ping" ++ [CR; LF]
             ++ jsq "data: {'choices':[{'delta':{'content':'!'}}]}" ]
           [ jsq "data: {'choices':[{'del";
             jsq "ta':{'content':'Hi'}}]}" ++ [LF] ++ lit ": ping" ++ [CR];
             [LF] ++ jsq "data: {'choices':[{'delta':{'content':'!'}}]}" ]);
    vm_compute; reflexivity.
Defined.

(* ================================================================== *)
(** * Further properties of the extractor and of upsertAssistant *)
(* ================================================================== *)

Module MarkerFacts.

Lemma lazy_group_exact (g post : jsstring) :
  g <> [] ->
  forallb (fun c => negb (is_line_terminator c)) g = true ->
  ~ In RBRACKET (tl g) ->
  lazy_group_then_close (g ++ MARKER_CLOSE ++ post) = Some (g, post).
Proof.
  induction g as [|c g IH]; intros Hne Hlt Hbr; [congruence|].
  cbn [forallb] in Hlt. apply andb_true_iff in Hlt as [Hc Hlt].
  apply negb_true_iff in Hc.
  rewrite <- app_comm_cons. cbn [lazy_group_then_close]. rewrite Hc.
  destruct g as [|d g].
  - cbn [app]. rewrite startsWith_app.
    now rewrite skipn_app, skipn_all, Nat.sub_diag.
  - cbn [tl] in Hbr.
    assert (Hd : N.eqb RBRACKET d = false).
    { apply N.eqb_neq. intros E. apply Hbr. now left. }
    replace (startsWith ((d :: g) ++ MARKER_CLOSE ++ post) MARKER_CLOSE)
      with false
      by (cbn [app startsWith MARKER_CLOSE lit map
               String.list_ascii_of_string];
          symmetry; apply andb_false_iff; left; exact Hd).
    rewrite IH; [reflexivity|discriminate|exact Hlt|].
    cbn [tl]. intros H. apply Hbr. now right.
Qed.

(** A text that starts with the pattern's first literal a little way in
    already holds the whole literal: its first character occurs nowhere
    else in it. *)
Lemma prefix_avoiding (a : char) (T x r : jsstring) :
  ~ In a T -> startsWith (x ++ a :: r) T = true -> exists b, x = T ++ b.
Proof.
  revert x. induction T as [|t T IH]; intros x Ha H; [now exists x|].
  destruct x as [|d x].
  - cbn [app startsWith] in H. apply andb_true_iff in H as [H _].
    apply N.eqb_eq in H. subst. exfalso. apply Ha. now left.
  - cbn [app startsWith] in H. apply andb_true_iff in H as [Hd H].
    apply N.eqb_eq in Hd. subst d.
    destruct (IH x) as [b ->]; [intros F; apply Ha; now right|exact H|].
    now exists b.
Qed.

Lemma no_match_before (x r : jsstring) :
  x <> [] ->
  (forall a b, x <> a ++ MARKER_OPEN ++ b) ->
  match_here (x ++ MARKER_OPEN ++ r) = None.
Proof.
  intros Hne Hx. unfold match_here.
  destruct (startsWith (x ++ MARKER_OPEN ++ r) MARKER_OPEN) eqn:E;
    [|reflexivity].
  exfalso. destruct x as [|c x]; [congruence|].
  change MARKER_OPEN with (60%N :: tl MARKER_OPEN) in E.
  cbn [app startsWith] in E. apply andb_true_iff in E as [Hc E].
  apply N.eqb_eq in Hc. subst c.
  apply prefix_avoiding in E as [b ->].
  - apply (Hx [] b). reflexivity.
  - intros F. cbv in F. intuition discriminate.
Qed.

Lemma regexp_exec_exact (pre g post : jsstring) :
  (forall a b, pre <> a ++ MARKER_OPEN ++ b) ->
  g <> [] ->
  forallb (fun c => negb (is_line_terminator c)) g = true ->
  ~ In RBRACKET (tl g) ->
  regexp_exec (pre ++ MARKER_OPEN ++ g ++ MARKER_CLOSE ++ post)
  = Some {| before := pre; group1 := g; after := post |}.
Proof.
  intros Hpre Hne Hlt Hbr. induction pre as [|c pre IH].
  - cbn [app]. destruct (MARKER_OPEN ++ g ++ MARKER_CLOSE ++ post) eqn:E;
      [discriminate E|]. cbn [regexp_exec]. rewrite <- E.
    unfold match_here. rewrite startsWith_app.
    rewrite skipn_app, skipn_all, Nat.sub_diag. cbn [skipn app].
    now rewrite lazy_group_exact.
  - rewrite <- app_comm_cons. cbn [regexp_exec]. rewrite app_comm_cons.
    rewrite no_match_before by (assumption || discriminate).
    rewrite IH; [reflexivity|].
    intros a b E. apply (Hpre (c :: a) b). now rewrite E.
Qed.

End MarkerFacts.

Import MarkerFacts.

(** X2. Recognition of a marker: in a text that holds the marker with the
    bracketed text [g] after [pre] and before [post], where the marker's
    opening does not occur in [pre], and [g] is not empty, has no line
    terminator and no closing bracket after its first character, the
    pattern matches this marker and no other. If [g] in brackets parses,
    the clean content is [pre] and [post] joined and trimmed and the
    quick replies are the parsed value; if not, the text comes back
    unchanged. *)
Theorem marker_is_recognised (pre g post : jsstring) :
  indexOf pre MARKER_OPEN = (-1)%Z ->
  g <> [] ->
  forallb (fun c => negb (is_line_terminator c)) g = true ->
  ~ In RBRACKET (tl g) ->
  let text := pre ++ MARKER_OPEN ++ g ++ MARKER_CLOSE ++ post in
  regexp_exec text = Some {| before := pre; group1 := g; after := post |}
  /\ extractQuickReplies text
     = match JSON_parse (lit "[" ++ g ++ lit "]") with
       | Some replies =>
           {| cleanContent := trim (pre ++ post); quickReplies := replies |}
       | None => {| cleanContent := text; quickReplies := JArray [] |}
       end.
Proof.
  intros Hpre Hne Hlt Hbr text.
  assert (Hm : regexp_exec text
               = Some {| before := pre; group1 := g; after := post |}).
  { apply regexp_exec_exact; try assumption.
    now apply indexOf_absent. }
  split; [exact Hm|].
  unfold extractQuickReplies, replace_first_match. rewrite Hm.
  cbn [before group1 after]. reflexivity.
Qed.

Lemma marker_is_recognised_witness :
  extractQuickReplies
    (lit "See <b>this</b>: " ++ MARKER_OPEN ++ jsq "'Map','<zoo>'"
     ++ MARKER_CLOSE ++ lit " ")
  = {| cleanContent := lit "See <b>this</b>:";
       quickReplies := JArray [JString (lit "Map"); JString (lit "<zoo>")] |}.
Proof.
  exact (proj2 (marker_is_recognised
                  (lit "See <b>this</b>: ") (jsq "'Map','<zoo>'") (lit " ")
                  ltac:(vm_compute; reflexivity)
                  ltac:(discriminate)
                  ltac:(vm_compute; reflexivity)
                  ltac:(intros F; cbv in F; intuition discriminate))).
Defined.

(** X3. Appends compose: two calls of [upsertAssistant] leave the same
    messages and the same running text as one call with the two chunks
    joined; they differ only in the view published in between. A marker
    that arrives in two pieces is read as if it had come in one. *)
Theorem upsertAssistant_composes (a b : jsstring) (st : state) :
  let two := upsertAssistant b (upsertAssistant a st) in
  let one := upsertAssistant (a ++ b) st in
  messages two = messages one
  /\ assistantSoFar two = assistantSoFar one
  /\ published one
     = published st ++ [extractQuickReplies (assistantSoFar st ++ a ++ b)]
  /\ published two
     = published st ++ [extractQuickReplies (assistantSoFar st ++ a);
                        extractQuickReplies (assistantSoFar st ++ a ++ b)].
Proof.
  intros two one. unfold two, one, upsertAssistant, setMessages.
  cbn [messages assistantSoFar published assistantId clock
       set_assistantSoFar].
  rewrite <- !app_assoc. repeat split; try reflexivity.
  set (v1 := extractQuickReplies (assistantSoFar st ++ a)).
  set (v2 := extractQuickReplies (assistantSoFar st ++ a ++ b)).
  destruct (last_is_reply (assistantId st) (messages st)) eqn:E.
  - destruct (last_is_reply_true _ _ E) as (l & last & -> & Hid & Hrole).
    rewrite !(upsert_update_replaces _ _ _ _ _ Hid Hrole).
    now rewrite upsert_update_replaces.
  - rewrite !(upsert_update_new _ _ _ _ E).
    now rewrite upsert_update_replaces.
Qed.

(* ================================================================== *)
(** * Further properties of the decode loop *)
(* ================================================================== *)

Section StreamFacts.

Variable Number_toString : jsstring -> jsstring.

Local Abbreviation decode := (decode Number_toString).
Local Abbreviation inner_loop := (inner_loop Number_toString).
Local Abbreviation read_chunk := (read_chunk Number_toString).
Local Abbreviation read_loop := (read_loop Number_toString).
Local Abbreviation flush_raw := (flush_raw Number_toString).
Local Abbreviation final_flush := (final_flush Number_toString).
Local Abbreviation decode_stream := (decode_stream Number_toString).

(** *** What every run keeps *)

Section Keeps.

(** A property of the reply that [upsertAssistant] keeps is kept by the
    loops: nothing else in them touches the reply. *)
Variable P : state -> Prop.
Hypothesis P_same_reply : forall a b, same_reply a b -> P a -> P b.
Hypothesis P_upsert : forall chunk st, P st -> P (upsertAssistant chunk st).

Lemma inner_loop_keeps (fuel : nat) : forall st, P st -> P (inner_loop fuel st).
Proof.
  induction fuel as [|fuel IH]; intros st H; [exact H|].
  cbn [Stream.inner_loop].
  destruct (indexOf (textBuffer st) [LF] =? -1)%Z; [exact H|].
  set (line := strip_cr _). set (st1 := note_record line _).
  assert (H1 : P st1) by (apply (P_same_reply st); [now repeat split|exact H]).
  destruct (decode line) as [| |chunk|].
  - now apply IH.
  - apply (P_same_reply st1); [now repeat split|exact H1].
  - apply IH. now apply P_upsert.
  - apply (P_same_reply st1); [now repeat split|exact H1].
Qed.

Lemma read_loop_keeps (chunks : list jsstring) :
  forall st, P st -> P (read_loop chunks st).
Proof.
  induction chunks as [|value chunks IH]; intros st H;
    cbn [Stream.read_loop]; destruct (streamDone st); try exact H.
  apply IH. unfold Stream.read_chunk. apply inner_loop_keeps.
  apply (P_same_reply st); [now repeat split|exact H].
Qed.

Lemma flush_raw_keeps (st : state) (raw : jsstring) :
  P st -> P (flush_raw st raw).
Proof.
  intros H. unfold Stream.flush_raw. destruct (is_empty raw); [exact H|].
  assert (H1 : P (note_flushed (strip_cr raw) st))
    by (apply (P_same_reply st); [now repeat split|exact H]).
  destruct (decode (strip_cr raw)); try exact H1. now apply P_upsert.
Qed.

Lemma final_flush_keeps (st : state) : P st -> P (final_flush st).
Proof.
  intros H. unfold Stream.final_flush.
  destruct (is_empty (trim (textBuffer st))); [exact H|].
  generalize (split (textBuffer st) LF). intros raws. revert st H.
  induction raws as [|raw raws IH]; intros st H; [exact H|].
  simpl. apply IH. now apply flush_raw_keeps.
Qed.

Lemma decode_stream_keeps (chunks : list jsstring) (st : state) :
  P st -> P (decode_stream chunks st).
Proof.
  intros H. unfold Stream.decode_stream.
  now apply final_flush_keeps, read_loop_keeps.
Qed.

End Keeps.

(** The reply of [st], with its id and clock. *)
Lemma shows_running_text_upsert (aid : jsstring) (time : Z)
  (prev : list ChatMessage.t) (chunk : jsstring) (st : state) :
  last_is_reply aid prev = false ->
  assistantId st = aid /\ clock st = time /\ shows_running_text prev st ->
  assistantId (upsertAssistant chunk st) = aid
  /\ clock (upsertAssistant chunk st) = time
  /\ shows_running_text prev (upsertAssistant chunk st).
Proof.
  intros Hlast (Hid & Hclock & Hshows).
  split; [exact Hid|]. split; [exact Hclock|]. right.
  unfold upsertAssistant, setMessages, reply_shown.
  cbn [messages assistantSoFar published assistantId clock
       set_assistantSoFar].
  destruct Hshows as [(Hpub & _ & Hm) | ([earlier Hpub] & Hm)].
  - split; [exists []; now rewrite Hpub|].
    rewrite Hm, Hid. now rewrite upsert_update_new.
  - split; [eexists; reflexivity|].
    rewrite Hm, Hid.
    rewrite upsert_update_replaces; [|exact Hid|reflexivity].
    reflexivity.
Qed.

Lemma shows_running_text_same_reply (aid : jsstring) (time : Z)
  (prev : list ChatMessage.t) (a b : state) :
  same_reply a b ->
  assistantId a = aid /\ clock a = time /\ shows_running_text prev a ->
  assistantId b = aid /\ clock b = time /\ shows_running_text prev b.
Proof.
  intros (H1 & H2 & H3 & H4 & H5) (Hid & Hclock & Hshows).
  unfold shows_running_text, reply_shown in *.
  rewrite <- H1, <- H2, <- H3, <- H4, <- H5. auto.
Qed.

Lemma reply_invariant
  (aid : jsstring) (time : Z) (prev : list ChatMessage.t)
  (chunks : list jsstring) :
  last_is_reply aid prev = false ->
  let P := fun st => assistantId st = aid /\ clock st = time
                     /\ shows_running_text prev st in
  P (decode_stream chunks (start_stream aid time prev))
  /\ P (read_loop chunks (start_stream aid time prev)).
Proof.
  intros Hlast P.
  assert (H0 : P (start_stream aid time prev)).
  { repeat split. now left. }
  split.
  - apply (decode_stream_keeps P); try exact H0.
    + intros a b. apply shows_running_text_same_reply.
    + intros chunk st. now apply shows_running_text_upsert.
  - apply (read_loop_keeps P); try exact H0.
    + intros a b. apply shows_running_text_same_reply.
    + intros chunk st. now apply shows_running_text_upsert.
Qed.

(** X4. The store during and after a stream: for a reply that starts
    from messages whose last one is not already its own, whatever the
    chunks and wherever the feed is cut, the run ends with the earlier
    messages untouched; either nothing was published and nothing was
    added, or exactly one message follows them, with the reply's id, the
    role assistant, and the clean content and quick replies of the final
    running text, which is also the view published last. The same holds
    when the run stops after the read loop. *)
Theorem stream_shows_running_text
  (aid : jsstring) (time : Z) (prev : list ChatMessage.t)
  (chunks : list jsstring) :
  last_is_reply aid prev = false ->
  shows_running_text prev (decode_stream chunks (start_stream aid time prev))
  /\ shows_running_text prev (read_loop chunks (start_stream aid time prev)).
Proof.
  intros Hlast.
  destruct (reply_invariant aid time prev chunks Hlast) as [H1 H2].
  split; [apply H1|apply H2].
Qed.

Lemma views_from_snoc (base : jsstring) (applied : list jsstring)
  (chunk : jsstring) :
  views_from base (applied ++ [chunk])
  = views_from base applied
    ++ [extractQuickReplies (base ++ concat applied ++ chunk)].
Proof.
  revert base. induction applied as [|c applied IH]; intros base; simpl.
  - reflexivity.
  - rewrite IH. now rewrite <- !app_assoc.
Qed.

(** X5. The running text is append-only and every view is published
    from it: whatever the chunks, the run appends some fragments to the
    running text it started with and never takes anything away, and the
    views it publishes are, one for each fragment and in order, the
    extraction from the running text as it stood once that fragment was
    appended. *)
Theorem running_text_only_grows (chunks : list jsstring) (st : state) :
  exists applied,
    assistantSoFar (decode_stream chunks st)
    = assistantSoFar st ++ concat applied
    /\ published (decode_stream chunks st)
       = published st ++ views_from (assistantSoFar st) applied.
Proof.
  apply (decode_stream_keeps
           (fun st' => exists applied,
              assistantSoFar st' = assistantSoFar st ++ concat applied
              /\ published st'
                 = published st ++ views_from (assistantSoFar st) applied)).
  - intros a b (_ & H2 & _ & _ & H5) (applied & Hso & Hpub).
    exists applied. now rewrite <- H2, <- H5.
  - intros chunk st' (applied & Hso & Hpub).
    exists (applied ++ [chunk]).
    unfold upsertAssistant, setMessages.
    cbn [assistantSoFar published set_assistantSoFar].
    rewrite Hso, Hpub, views_from_snoc, concat_app. simpl.
    now rewrite app_nil_r, <- !app_assoc.
  - exists []. simpl. now rewrite !app_nil_r.
Qed.

(** *** After the sentinel *)

Lemma read_loop_app (chunks later : list jsstring) :
  forall st,
    read_loop (chunks ++ later) st = read_loop later (read_loop chunks st).
Proof.
  induction chunks as [|value chunks IH]; intros st.
  - cbn [app]. f_equal. cbn [Stream.read_loop]. now destruct (streamDone st).
  - rewrite <- app_comm_cons.
    destruct (streamDone st) eqn:E.
    + now rewrite !(read_loop_stopped Number_toString _ _ E).
    + cbn [Stream.read_loop]. rewrite E. apply IH.
Qed.

(** X6. Once the read loop has met the sentinel, it reads no more:
    whatever chunks the transport would still deliver, the run ends in
    the same state as without them. *)
Theorem nothing_is_read_after_the_sentinel
  (chunks later : list jsstring) (st : state) :
  streamDone (read_loop chunks st) = true ->
  decode_stream (chunks ++ later) st = decode_stream chunks st.
Proof.
  intros H. unfold Stream.decode_stream.
  now rewrite read_loop_app, (read_loop_stopped _ _ _ H).
Qed.

(** *** The reply as a function of the feed *)

Lemma flush_raws_reply (raws : list jsstring) :
  forall st,
    assistantSoFar (fold_left flush_raw raws st)
    = assistantSoFar st ++ concat (payloads Number_toString raws)
    /\ published (fold_left flush_raw raws st)
       = published st
         ++ views_from (assistantSoFar st) (payloads Number_toString raws).
Proof.
  induction raws as [|raw raws IH]; intros st.
  - simpl. now rewrite !app_nil_r.
  - cbn [fold_left payloads flat_map]. fold (payloads Number_toString raws).
    destruct (IH (flush_raw st raw)) as [Hso Hpub]. rewrite Hso, Hpub.
    unfold Stream.flush_raw.
    destruct raw as [|c raw].
    { change (strip_cr []) with (@nil char). rewrite decode_empty.
      now split. }
    cbn [is_empty]. cbv iota.
    destruct (decode (strip_cr (c :: raw))) as [| |chunk|];
      try (now split).
    unfold upsertAssistant, setMessages.
    cbn [assistantSoFar published set_assistantSoFar note_flushed
         app concat views_from].
    now rewrite <- !app_assoc.
Qed.

(** X7. The reply as a function of the feed: in a run whose read loop
    does not meet the sentinel, the final running text is the content
    fragments of the feed's lines joined in the order of the lines, and
    the views published are those of appending these fragments one by
    one; comments, blank lines, lines without the data prefix, records
    without content and records that do not parse add nothing, and the
    cut into chunks makes no difference. *)
Theorem reply_is_the_fragments_in_order
  (aid : jsstring) (time : Z) (prev : list ChatMessage.t)
  (chunks : list jsstring) :
  let st := decode_stream chunks (start_stream aid time prev) in
  let fragments := payloads Number_toString (split (concat chunks) LF) in
  streamDone (read_loop chunks (start_stream aid time prev)) = false ->
  assistantSoFar st = concat fragments
  /\ published st = views_from [] fragments.
Proof.
  intros st fragments Hdone.
  destruct (decode_stream_is_flush_all Number_toString chunks
              (start_stream aid time prev) eq_refl Hdone)
    as (_ & Hso & _ & _ & Hpub).
  fold st in Hso, Hpub. rewrite Hso, Hpub. unfold flush_all.
  destruct (flush_raws_reply (split (concat chunks) LF)
              (start_stream aid time prev)) as [H1 H2].
  now rewrite H1, H2.
Qed.

End StreamFacts.

Lemma stream_shows_running_text_witness :
  let prev := [ {| ChatMessage.id := lit "6"; ChatMessage.role := user;
                   ChatMessage.content := lit "zoo?";
                   ChatMessage.timestamp := 6%Z;
                   ChatMessage.quickReplies := None |} ] in
  let chunks := [ jsq "data: {'choices':[{'del";
                  jsq "ta':{'content':'Hi'}}]}" ++ [LF] ++ lit "data: {" ] in
  shows_running_text prev
    (decode_stream lexeme_as_written chunks (start_stream (lit "7") 7%Z prev))
  /\ shows_running_text prev
       (read_loop lexeme_as_written chunks (start_stream (lit "7") 7%Z prev)).
Proof.
  exact (stream_shows_running_text lexeme_as_written (lit "7") 7%Z
           [ {| ChatMessage.id := lit "6"; ChatMessage.role := user;
                ChatMessage.content := lit "zoo?";
                ChatMessage.timestamp := 6%Z;
                ChatMessage.quickReplies := None |} ]
           [ jsq "data: {'choices':[{'del";
             jsq "ta':{'content':'Hi'}}]}" ++ [LF] ++ lit "data: {" ]
           eq_refl).
Defined.

Lemma nothing_is_read_after_the_sentinel_witness :
  let chunks := [ HI_RECORD ++ [LF] ++ DONE_RECORD ++ [LF] ] in
  let later := [ IGNORED_RECORD ++ [LF] ] in
  let st := start_stream (lit "7") 0%Z [] in
  decode_stream lexeme_as_written (chunks ++ later) st
  = decode_stream lexeme_as_written chunks st.
Proof.
  exact (nothing_is_read_after_the_sentinel lexeme_as_written
           [ HI_RECORD ++ [LF] ++ DONE_RECORD ++ [LF] ]
           [ IGNORED_RECORD ++ [LF] ]
           (start_stream (lit "7") 0%Z [])
           ltac:(vm_compute; reflexivity)).
Defined.

Lemma reply_is_the_fragments_in_order_witness :
  let chunks := [ lit ": ping" ++ [LF] ++ jsq "data: {'choices':[{'del";
                  jsq "ta':{'content':'Hi'}}]}" ++ [CR; LF]
                  ++ lit "event: x" ++ [LF];
                  jsq "data: {'choices':[{'delta':{}}]}" ++ [LF]
                  ++ jsq "data: {'choices':[{'delta':{'content':'!'}}]}" ] in
  let st := decode_stream lexeme_as_written chunks
              (start_stream (lit "7") 0%Z []) in
  payloads lexeme_as_written (split (concat chunks) LF) = [lit "Hi"; lit "!"]
  /\ assistantSoFar st = lit "Hi!"
  /\ published st = views_from [] [lit "Hi"; lit "!"].
Proof.
  split; [vm_compute; reflexivity|].
  exact (reply_is_the_fragments_in_order lexeme_as_written (lit "7") 0%Z []
           [ lit ": ping" ++ [LF] ++ jsq "data: {'choices':[{'del";
             jsq "ta':{'content':'Hi'}}]}" ++ [CR; LF]
             ++ lit "event: x" ++ [LF];
             jsq "data: {'choices':[{'delta':{}}]}" ++ [LF]
             ++ jsq "data: {'choices':[{'delta':{'content':'!'}}]}" ]
           ltac:(vm_compute; reflexivity)).
Defined.

(* ================================================================== *)
(** * sendMessage as a whole *)
(* ================================================================== *)

Module DecimalFacts.

Lemma lit_inj (a b : String.string) : lit a = lit b -> a = b.
Proof.
  unfold lit. intros H.
  rewrite <- (String.string_of_list_ascii_of_string a),
          <- (String.string_of_list_ascii_of_string b).
  f_equal. revert H.
  generalize (String.list_ascii_of_string a) (String.list_ascii_of_string b).
  induction l as [|x l IH]; intros [|y l'] H; simpl in H;
    try discriminate; [reflexivity|].
  injection H as Hx Hl. f_equal; [|now apply IH].
  rewrite <- (Ascii.ascii_N_embedding x), <- (Ascii.ascii_N_embedding y).
  now rewrite Hx.
Qed.

Lemma to_int_not_nil (n : Z) :
  Z.to_int n <> Decimal.Pos Decimal.Nil
  /\ Z.to_int n <> Decimal.Neg Decimal.Nil.
Proof.
  destruct n as [|p|p]; simpl; split; try discriminate;
    intros H; injection H as H;
    exact (DecimalPos.Unsigned.to_uint_nonnil p H).
Qed.

(** Two integers print alike only when they are equal. *)
Lemma decimal_inj (a b : Z) : Hook.decimal a = Hook.decimal b -> a = b.
Proof.
  unfold Hook.decimal. intros H. apply lit_inj in H.
  apply (f_equal DecimalString.NilZero.int_of_string) in H.
  destruct (to_int_not_nil a) as [Ha1 Ha2].
  destruct (to_int_not_nil b) as [Hb1 Hb2].
  rewrite !DecimalString.NilZero.isi in H by assumption.
  injection H as H. now apply DecimalZ.to_int_inj.
Qed.

End DecimalFacts.

Import DecimalFacts.

Section HookFacts.

Variable Number_toString : jsstring -> jsstring.

Local Abbreviation sendMessage := (Hook.sendMessage Number_toString).
Local Abbreviation read_loop := (read_loop Number_toString).
Local Abbreviation decode_stream := (decode_stream Number_toString).

Lemma is_empty_trim (text : jsstring) :
  is_empty (trim text) = forallb is_white_space text.
Proof.
  destruct (forallb is_white_space text) eqn:E.
  - apply trim_nil in E. now rewrite E.
  - destruct (trim text) eqn:T; [|reflexivity].
    apply trim_nil in T. congruence.
Qed.

Lemma user_is_not_reply (aid : jsstring) (prev : list ChatMessage.t)
  (m : ChatMessage.t) :
  ChatMessage.role m = user -> last_is_reply aid (prev ++ [m]) = false.
Proof. unfold last_is_reply. rewrite item_last. now intros ->. Qed.

Lemma status_toast_variant (code : Z) (msg : json) :
  Hook.variant (Hook.status_toast code msg) = Hook.DESTRUCTIVE.
Proof.
  unfold Hook.status_toast.
  now destruct (code =? 429)%Z, (code =? 402)%Z.
Qed.

Lemma status_toast_not_connection (code : Z) (msg : json) :
  Hook.status_toast code msg <> Hook.connection_error.
Proof.
  intros H. apply (f_equal Hook.title) in H. unfold Hook.status_toast in H.
  destruct (code =? 429)%Z, (code =? 402)%Z; vm_compute in H; discriminate.
Qed.

Lemma error_of_throws (errorData : json) :
  Hook.error_of errorData = Throw <-> errorData = JNull.
Proof. destruct errorData; simpl; split; congruence. Qed.

Lemma snoc_neq (A : Type) (l : list A) (tail : list A) :
  tail <> [] -> l ++ tail <> l.
Proof.
  intros Ht H. apply (f_equal (@length A)) in H. rewrite length_app in H.
  destruct tail; [congruence|simpl in H; lia].
Qed.

(** The stream of a call that passed the guard keeps the invariant of
    the reply. *)
Lemma sendMessage_stream (clk : Hook.clock_reads) (text : jsstring)
  (h : Hook.view) (chunks : list jsstring) :
  let prev := Hook.store h ++ [user_message clk text] in
  let st0 := start_stream (reply_id clk) (Hook.date_reply clk) prev in
  let P := fun st => assistantId st = reply_id clk
                     /\ clock st = Hook.date_reply clk
                     /\ shows_running_text prev st in
  P (decode_stream chunks st0) /\ P (read_loop chunks st0).
Proof.
  intros prev st0 P.
  apply (reply_invariant Number_toString).
  now apply user_is_not_reply.
Qed.

Ltac pass_guard clk text Hblank Hbusy :=
  unfold Hook.sendMessage; rewrite is_empty_trim, Hblank, Hbusy;
  cbn [orb]; cbv iota zeta;
  fold (user_message clk text); fold (reply_id clk).

(** What every call that passed the guard comes to. *)
Lemma sendMessage_shape (clk : Hook.clock_reads) (tr : Hook.transport)
  (text : jsstring) (h : Hook.view) :
  forallb is_white_space text = false ->
  Hook.isLoading h = false ->
  let r := sendMessage clk tr text h in
  let prev := Hook.store h ++ [user_message clk text] in
  Hook.isLoading r = false
  /\ (Hook.store r = prev
      \/ exists st,
           assistantId st = reply_id clk
           /\ clock st = Hook.date_reply clk
           /\ Hook.store r = prev ++ [reply_shown st])
  /\ (Hook.toasts r = Hook.toasts h
      \/ exists t,
           Hook.toasts r = Hook.toasts h ++ [t]
           /\ Hook.variant t = Hook.DESTRUCTIVE).
Proof.
  intros Hblank Hbusy r prev. unfold r, prev. clear r prev.
  assert (Hstore : forall st,
             assistantId st = reply_id clk
             /\ clock st = Hook.date_reply clk
             /\ shows_running_text
                  (Hook.store h ++ [user_message clk text]) st ->
             messages st = Hook.store h ++ [user_message clk text]
             \/ exists st',
                  assistantId st' = reply_id clk
                  /\ clock st' = Hook.date_reply clk
                  /\ messages st
                     = (Hook.store h ++ [user_message clk text])
                       ++ [reply_shown st']).
  { intros st (Hid & Hclock & [(_ & _ & Hm) | (_ & Hm)]).
    - now left.
    - right. now exists st. }
  pass_guard clk text Hblank Hbusy.
  destruct tr as [|resp].
  - cbn. split; [reflexivity|]. split; [now left|].
    right. now eexists.
  - destruct (Hook.ok resp); cbn [negb]; cbv iota.
    + destruct (Hook.body resp) as [[chunks ending]|].
      * destruct (sendMessage_stream clk text h chunks) as [Hd Hr].
        cbv zeta in Hd, Hr.
        destruct ending.
        -- cbn [Hook.store Hook.isLoading Hook.toasts].
           split; [reflexivity|]. split; [now apply Hstore|now left].
        -- destruct (streamDone _);
             cbn [Hook.store Hook.isLoading Hook.toasts].
           ++ split; [reflexivity|]. split; [now apply Hstore|now left].
           ++ split; [reflexivity|]. split; [now apply Hstore|].
              right. now eexists.
      * cbn. split; [reflexivity|]. split; [now left|].
        right. now eexists.
    + destruct (Hook.error_of _);
        cbn [Hook.store Hook.isLoading Hook.toasts messages start_stream].
      * split; [reflexivity|]. split; [now left|].
        right. eexists. split; [reflexivity|apply status_toast_variant].
      * split; [reflexivity|]. split; [now left|].
        right. now eexists.
Qed.

Lemma count_id_app (aid : jsstring) (l l' : list ChatMessage.t) :
  count_id aid (l ++ l') = (count_id aid l + count_id aid l')%nat.
Proof. unfold count_id. now rewrite filter_app, length_app. Qed.

(** X8. The guard: a call changes nothing exactly when the text is all
    white space (the empty text included) or a reply is in progress; any
    other call at least adds the user's message. *)
Theorem sendMessage_does_nothing_iff
  (clk : Hook.clock_reads) (tr : Hook.transport) (text : jsstring)
  (h : Hook.view) :
  sendMessage clk tr text h = h
  <-> forallb is_white_space text = true \/ Hook.isLoading h = true.
Proof.
  split.
  - intros H. destruct (forallb is_white_space text) eqn:Hb; [now left|].
    destruct (Hook.isLoading h) eqn:Hl; [now right|]. exfalso.
    destruct (sendMessage_shape clk tr text h Hb Hl) as (_ & Hs & _).
    cbv zeta in Hs. rewrite H in Hs.
    destruct Hs as [Hs | (st & _ & _ & Hs)].
    + symmetry in Hs. revert Hs. apply snoc_neq. discriminate.
    + rewrite <- app_assoc in Hs. symmetry in Hs. revert Hs.
      apply snoc_neq. discriminate.
  - intros [H|H]; unfold Hook.sendMessage; rewrite is_empty_trim, H;
      [reflexivity|now rewrite orb_true_r].
Qed.

(** X9. Every call that passes the guard settles: whatever the
    transport does, the busy flag is cleared at the end, the store is
    the earlier messages, then the user's message, then at most one
    message, which has the reply's id, the role assistant and the time
    of the reply; and at most one toast is raised, a destructive one. *)
Theorem sendMessage_always_settles
  (clk : Hook.clock_reads) (tr : Hook.transport) (text : jsstring)
  (h : Hook.view) :
  forallb is_white_space text = false ->
  Hook.isLoading h = false ->
  let r := sendMessage clk tr text h in
  Hook.isLoading r = false
  /\ (exists tail,
        Hook.store r = Hook.store h ++ user_message clk text :: tail
        /\ (tail = []
            \/ exists reply,
                 tail = [reply]
                 /\ ChatMessage.id reply = reply_id clk
                 /\ ChatMessage.role reply = assistant
                 /\ ChatMessage.timestamp reply = Hook.date_reply clk))
  /\ (exists raised,
        Hook.toasts r = Hook.toasts h ++ raised
        /\ (length raised <= 1)%nat
        /\ Forall (fun t => Hook.variant t = Hook.DESTRUCTIVE) raised).
Proof.
  intros Hblank Hbusy r.
  destruct (sendMessage_shape clk tr text h Hblank Hbusy) as (Hl & Hs & Ht).
  fold r in Hl, Hs, Ht. split; [exact Hl|]. split.
  - destruct Hs as [Hs | (st & Hid & Hclock & Hs)].
    + exists []. split; [exact Hs|now left].
    + exists [reply_shown st]. split; [now rewrite Hs, <- app_assoc|].
      right. exists (reply_shown st). now repeat split.
  - destruct Ht as [Ht | (t & Ht & Hv)].
    + exists []. rewrite app_nil_r. repeat split; [exact Ht|simpl; lia|].
      constructor.
    + exists [t]. repeat split; [exact Ht|simpl; lia|].
      now repeat constructor.
Qed.

(** X10. A response that is not ok: the body stream is not read, the
    store gets the user's message and nothing else, the busy flag is
    cleared and one toast is raised. Its title and text follow the
    status for 429 and 402; for any other status the title is Error and
    the text is the error member of the JSON body when that is a string
    that is not empty, and the default text when the body is not JSON or
    is an object without the member. A body that is the JSON null makes
    reading the member throw, and the toast is the connection one. *)
Theorem http_error_is_reported
  (clk : Hook.clock_reads) (resp : Hook.Response) (text : jsstring)
  (h : Hook.view) :
  forallb is_white_space text = false ->
  Hook.isLoading h = false ->
  Hook.ok resp = false ->
  exists t,
    sendMessage clk (Hook.Responded resp) text h
    = {| Hook.store := Hook.store h ++ [user_message clk text];
         Hook.isLoading := false;
         Hook.toasts := Hook.toasts h ++ [t] |}
    /\ (Hook.json_body resp = Some JNull -> t = Hook.connection_error)
    /\ (Hook.json_body resp <> Some JNull ->
        Hook.variant t = Hook.DESTRUCTIVE
        /\ (Hook.status resp = 429%Z ->
            Hook.title t = lit "Rate Limited"
            /\ Hook.description t
               = JString (lit "Too many requests. Please wait a moment."))
        /\ (Hook.status resp = 402%Z ->
            Hook.title t = lit "Credits Exhausted"
            /\ Hook.description t
               = JString (lit "AI usage credits have been exhausted."))
        /\ (Hook.status resp <> 429%Z -> Hook.status resp <> 402%Z ->
            Hook.title t = lit "Error"
            /\ (Hook.json_body resp = None ->
                Hook.description t = JString Hook.DEFAULT_ERROR)
            /\ (forall members,
                  Hook.json_body resp = Some (JObject members) ->
                  lookup (lit "error") members = None ->
                  Hook.description t = JString Hook.DEFAULT_ERROR)
            /\ (forall members s,
                  Hook.json_body resp = Some (JObject members) ->
                  lookup (lit "error") members = Some (JString s) ->
                  s <> [] ->
                  Hook.description t = JString s))).
Proof.
  intros Hblank Hbusy Hok.
  pass_guard clk text Hblank Hbusy. rewrite Hok. cbn [negb]. cbv iota.
  set (errorData := match Hook.json_body resp with
                    | Some v => v
                    | None => JObject []
                    end).
  assert (Hnull : errorData = JNull <-> Hook.json_body resp = Some JNull).
  { unfold errorData. destruct (Hook.json_body resp) as [v|];
      split; congruence. }
  destruct (Hook.error_of errorData) as [error|] eqn:E.
  - assert (Hn : errorData <> JNull).
    { intros F. apply error_of_throws in F. congruence. }
    exists (Hook.status_toast (Hook.status resp)
              (Hook.errorMsg Number_toString error)).
    split; [reflexivity|]. split; [intros F; now apply Hnull in F|].
    intros _. split; [apply status_toast_variant|].
    unfold Hook.status_toast.
    destruct (Z.eqb_spec (Hook.status resp) 429) as [H1|H1];
      [rewrite H1; repeat split; intros; try reflexivity; congruence|].
    destruct (Z.eqb_spec (Hook.status resp) 402) as [H2|H2];
      [rewrite H2; repeat split; intros; try reflexivity; congruence|].
    split; [congruence|]. split; [congruence|]. intros _ _.
    split; [reflexivity|]. cbn [Hook.description].
    split; [|split].
    + intros Hb. unfold errorData in E. rewrite Hb in E.
      injection E as <-. reflexivity.
    + intros members Hb Hm. unfold errorData in E. rewrite Hb in E.
      cbn [Hook.error_of GetNamed] in E. rewrite Hm in E.
      injection E as <-. reflexivity.
    + intros members s Hb Hm Hs. unfold errorData in E. rewrite Hb in E.
      cbn [Hook.error_of GetNamed] in E. rewrite Hm in E.
      injection E as <-.
      cbn [Hook.errorMsg ToBoolean]. now destruct s.
  - apply error_of_throws in E. exists Hook.connection_error.
    split; [reflexivity|]. split; [reflexivity|].
    intros F. now apply Hnull in E.
Qed.

(** X11. When the connection toast is raised: a call that passes the
    guard raises it exactly when an await before the response rejects,
    when a response that is not ok has the JSON null as its body, when
    an ok response has no body, or when a read rejects before the
    sentinel was met. A read that rejects after the sentinel is never
    made, and no other failure raises this toast. *)
Theorem connection_toast_cases
  (clk : Hook.clock_reads) (tr : Hook.transport) (text : jsstring)
  (h : Hook.view) :
  forallb is_white_space text = false ->
  Hook.isLoading h = false ->
  let st0 := start_stream (reply_id clk) (Hook.date_reply clk)
               (Hook.store h ++ [user_message clk text]) in
  Hook.toasts (sendMessage clk tr text h)
  = Hook.toasts h ++ [Hook.connection_error]
  <-> tr = Hook.Rejected
      \/ (exists resp,
            tr = Hook.Responded resp /\ Hook.ok resp = false
            /\ Hook.json_body resp = Some JNull)
      \/ (exists resp,
            tr = Hook.Responded resp /\ Hook.ok resp = true
            /\ Hook.body resp = None)
      \/ (exists resp chunks,
            tr = Hook.Responded resp /\ Hook.ok resp = true
            /\ Hook.body resp = Some (chunks, Hook.ReadRejects)
            /\ streamDone (read_loop chunks st0) = false).
Proof.
  intros Hblank Hbusy st0. unfold st0. clear st0.
  assert (Hsame : Hook.toasts h <> Hook.toasts h ++ [Hook.connection_error]).
  { intros F. symmetry in F. revert F. apply snoc_neq. discriminate. }
  pass_guard clk text Hblank Hbusy.
  destruct tr as [|resp].
  { split; [now left|reflexivity]. }
  destruct (Hook.ok resp) eqn:Hok; cbn [negb]; cbv iota.
  - destruct (Hook.body resp) as [[chunks ending]|] eqn:Hbody.
    + destruct ending.
      * cbn [Hook.toasts]. split; [intros F; now apply Hsame in F|].
        intros [F | [(r & F & Hk & _) | [(r & F & _ & Hb)
                                        | (r & c & F & _ & Hb & _)]]];
          try discriminate; injection F as <-; congruence.
      * destruct (streamDone _) eqn:Hdone; cbn [Hook.toasts].
        -- split; [intros F; now apply Hsame in F|].
           intros [F | [(r & F & Hk & _) | [(r & F & _ & Hb)
                                           | (r & c & F & _ & Hb & Hd)]]];
             try discriminate; injection F as <-; congruence.
        -- split; [|reflexivity]. intros _. right. right. right.
           now exists resp, chunks.
    + split; [|reflexivity]. intros _. right. right. left. now exists resp.
  - set (errorData := match Hook.json_body resp with
                      | Some v => v
                      | None => JObject []
                      end).
    assert (Hnull : errorData = JNull <-> Hook.json_body resp = Some JNull).
    { unfold errorData. destruct (Hook.json_body resp) as [v|];
        split; congruence. }
    destruct (Hook.error_of errorData) as [error|] eqn:E; cbn [Hook.toasts].
    + split.
      * intros F. apply app_inv_head in F. injection F as F.
        now apply status_toast_not_connection in F.
      * intros [F | [(r & F & _ & Hb) | [(r & F & Hk & _)
                                        | (r & c & F & Hk & _)]]];
          try discriminate; injection F as <-; try congruence.
        apply Hnull, error_of_throws in Hb. congruence.
    + split; [|reflexivity]. intros _. right. left. exists resp.
      apply error_of_throws, Hnull in E. now repeat split.
Qed.

(** X12. The reply's id is its own: when the clock does not run
    backwards between the two readings and no earlier message carries
    the reply's id, the user's message has another id than the reply,
    and at the end of the call the messages that carry the reply's id
    are exactly the messages added after the user's: none or one. *)
Theorem reply_id_is_unique
  (clk : Hook.clock_reads) (tr : Hook.transport) (text : jsstring)
  (h : Hook.view) :
  forallb is_white_space text = false ->
  Hook.isLoading h = false ->
  (Hook.now_user clk <= Hook.now_reply clk)%Z ->
  count_id (reply_id clk) (Hook.store h) = 0%nat ->
  let r := sendMessage clk tr text h in
  ChatMessage.id (user_message clk text) <> reply_id clk
  /\ (count_id (reply_id clk) (Hook.store r) <= 1)%nat
  /\ count_id (reply_id clk) (Hook.store r)
     = (length (Hook.store r) - length (Hook.store h) - 1)%nat.
Proof.
  intros Hblank Hbusy Hclk Hfresh r.
  assert (Hne : ChatMessage.id (user_message clk text) <> reply_id clk).
  { cbn. unfold reply_id. intros F. apply decimal_inj in F. lia. }
  assert (Hu : count_id (reply_id clk) [user_message clk text] = 0%nat).
  { unfold count_id. cbn [filter]. apply eqb_neq in Hne. now rewrite Hne. }
  split; [exact Hne|].
  destruct (sendMessage_shape clk tr text h Hblank Hbusy)
    as (_ & [Hs | (st & Hid & _ & Hs)] & _); fold r in Hs; rewrite Hs.
  - rewrite count_id_app, Hfresh, Hu, length_app. simpl. lia.
  - assert (Hr : count_id (reply_id clk) [reply_shown st] = 1%nat).
    { unfold count_id. cbn [filter reply_shown ChatMessage.id].
      now rewrite Hid, eqb_refl. }
    rewrite !count_id_app, Hfresh, Hu, Hr, !length_app. simpl. lia.
Qed.

End HookFacts.

(** X13. What [extractQuickReplies] can do to a text: it returns the
    text as it came, with no quick replies, or the text holds a marker
    whose bracket is not empty and parses, and the content is the text
    without that one marker, trimmed at both ends. It never changes the
    content in any other way. *)
Theorem extractQuickReplies_cases (text : jsstring) :
  extractQuickReplies text
  = {| cleanContent := text; quickReplies := JArray [] |}
  \/ exists pre g post replies,
       text = pre ++ MARKER_OPEN ++ g ++ MARKER_CLOSE ++ post
       /\ g <> []
       /\ JSON_parse (lit "[" ++ g ++ lit "]") = Some replies
       /\ extractQuickReplies text
          = {| cleanContent := trim (pre ++ post); quickReplies := replies |}.
Proof.
  unfold extractQuickReplies.
  destruct (regexp_exec text) as [m|] eqn:E; [|now left].
  destruct (JSON_parse (lit "[" ++ group1 m ++ lit "]")) as [replies|] eqn:P;
    [|now left].
  right. destruct (regexp_exec_sound _ _ E) as [Hs Hg].
  exists (before m), (group1 m), (after m), replies.
  rewrite (replace_first_match_found _ _ E). now repeat split.
Qed.

Lemma sendMessage_always_settles_witness :
  let clk := {| Hook.now_user := 1000; Hook.date_user := 1000;
                Hook.now_reply := 1000; Hook.date_reply := 1001 |} in
  let h := {| Hook.store := []; Hook.isLoading := false;
              Hook.toasts := [] |} in
  let tr := Hook.Responded
              {| Hook.status := 200; Hook.json_body := None;
                 Hook.body := Some ([HI_RECORD ++ [LF]; lit "data: {"],
                                    Hook.ReadRejects) |} in
  Hook.isLoading (Hook.sendMessage lexeme_as_written clk tr (lit "zoo?") h)
  = false.
Proof.
  exact (proj1 (sendMessage_always_settles lexeme_as_written
                  {| Hook.now_user := 1000; Hook.date_user := 1000;
                     Hook.now_reply := 1000; Hook.date_reply := 1001 |}
                  (Hook.Responded
                     {| Hook.status := 200; Hook.json_body := None;
                        Hook.body := Some ([HI_RECORD ++ [LF]; lit "data: {"],
                                           Hook.ReadRejects) |})
                  (lit "zoo?")
                  {| Hook.store := []; Hook.isLoading := false;
                     Hook.toasts := [] |}
                  eq_refl eq_refl)).
Defined.

Lemma http_error_is_reported_witness :
  let clk := {| Hook.now_user := 1000; Hook.date_user := 1000;
                Hook.now_reply := 1000; Hook.date_reply := 1001 |} in
  let h := {| Hook.store := []; Hook.isLoading := false;
              Hook.toasts := [] |} in
  let resp := {| Hook.status := 500;
                 Hook.json_body :=
                   Some (JObject [(lit "error", JString (lit "boom"))]);
                 Hook.body := None |} in
  exists t,
    Hook.sendMessage lexeme_as_written clk (Hook.Responded resp)
      (lit "zoo?") h
    = {| Hook.store := [user_message clk (lit "zoo?")];
         Hook.isLoading := false;
         Hook.toasts := [t] |}
    /\ Hook.title t = lit "Error"
    /\ Hook.description t = JString (lit "boom").
Proof.
  intros clk h resp.
  destruct (http_error_is_reported lexeme_as_written clk resp (lit "zoo?") h
              eq_refl eq_refl eq_refl) as (t & H & _ & H2).
  exists t. split; [exact H|].
  destruct H2 as (_ & _ & _ & H3); [discriminate|].
  destruct H3 as (Ht & _ & _ & H4); [discriminate..|].
  split; [exact Ht|].
  apply (H4 [(lit "error", JString (lit "boom"))] (lit "boom") eq_refl eq_refl).
  discriminate.
Defined.

Lemma connection_toast_cases_witness :
  let clk := {| Hook.now_user := 1000; Hook.date_user := 1000;
                Hook.now_reply := 1000; Hook.date_reply := 1001 |} in
  let h := {| Hook.store := []; Hook.isLoading := false;
              Hook.toasts := [] |} in
  let resp := {| Hook.status := 200; Hook.json_body := None;
                 Hook.body := Some ([HI_RECORD ++ [LF]; lit "data: {"],
                                    Hook.ReadRejects) |} in
  Hook.toasts
    (Hook.sendMessage lexeme_as_written clk (Hook.Responded resp)
       (lit "zoo?") h)
  = [Hook.connection_error].
Proof.
  intros clk h resp.
  refine (proj2 (connection_toast_cases lexeme_as_written clk
                   (Hook.Responded resp) (lit "zoo?") h eq_refl eq_refl) _).
  right. right. right.
  exists resp, [HI_RECORD ++ [LF]; lit "data: {"].
  split; [reflexivity|]. split; [reflexivity|]. split; [reflexivity|].
  vm_compute. reflexivity.
Defined.

Lemma reply_id_is_unique_witness :
  let clk := {| Hook.now_user := 1000; Hook.date_user := 1000;
                Hook.now_reply := 1000; Hook.date_reply := 1001 |} in
  let h := {| Hook.store := []; Hook.isLoading := false;
              Hook.toasts := [] |} in
  let resp := {| Hook.status := 200; Hook.json_body := None;
                 Hook.body := Some ([HI_RECORD ++ [LF]], Hook.Done) |} in
  let r := Hook.sendMessage lexeme_as_written clk (Hook.Responded resp)
             (lit "zoo?") h in
  reply_id clk = lit "1001"
  /\ length (Hook.store r) = 2%nat
  /\ count_id (reply_id clk) (Hook.store r)
     = (length (Hook.store r) - length (Hook.store h) - 1)%nat.
Proof.
  intros clk h resp r.
  split; [vm_compute; reflexivity|]. split; [vm_compute; reflexivity|].
  apply (reply_id_is_unique lexeme_as_written clk (Hook.Responded resp)
           (lit "zoo?") h eq_refl eq_refl).
  - simpl. lia.
  - reflexivity.
Defined.
